(** * Pong: the per-frame update of paddles and ball (main.js)

    A shallow embedding of the game logic of [main.js]: the paddle update
    ([Plank.moveUpdate]), the ball update ([Ball.moveUpdate] with
    [Ball.detectCollision] and [Ball.bounce]), the registration of
    collidables and the two random samplers of [Drawable]; the statements
    that build the scene, [addNewBall], the key listeners and the time
    bookkeeping and update loop of [drawScene]; and the two helpers on
    integer sizes, [isPowerOf2] and [resizeCanvasToDisplaySize].

    JavaScript objects live in a store indexed by references, so that a ball
    reads the paddles it collides with through the references it registered.
    Methods are computations in a state-and-exception monad over that store.
    The arrays held in the fields [translation], [moveVector] and [color] are
    never shared between two objects of the script, so they are kept as
    values inside the object. What only serves the rendering (shaders,
    buffers, textures, [draw]) is left out.

    JavaScript numbers are kept behind a small interface, [Number], with two
    instances: [binary64] (IEEE 754 doubles, what the engine computes) and
    [exact] (rational arithmetic without rounding). *)

From Stdlib Require Import ZArith QArith Floats Bool List Lia Lqa.
From stdpp Require Import base option gmap strings list.

Set Warnings "-inexact-float".
Set Default Proof Using "Type".

(** ** Numbers *)

Declare Scope js_scope.
Delimit Scope js_scope with js.

(** The arithmetic the script uses: [+ - * /], the comparisons [<=] and [>],
    and decimal literals. *)
Class Number (num : Type) := {
  nadd : num → num → num;
  nsub : num → num → num;
  nmul : num → num → num;
  ndiv : num → num → num;
  nle : num → num → bool;
  ngt : num → num → bool;
  lit : Q → num;
}.

Infix "+" := nadd : js_scope.
Infix "-" := nsub : js_scope.
Infix "*" := nmul : js_scope.
Infix "/" := ndiv : js_scope.
Infix "<=?" := nle : js_scope.
Infix ">?" := ngt : js_scope.

(** An integer as a double (exact below 2^53, rounded to nearest above). *)
Definition Z2F (z : Z) : float := SF2Prim (binary_normalize prec emax z 0 false).

(** A decimal literal [n/d] as a double: the correctly rounded quotient of the
    two integers, which is the double nearest to the literal as long as both
    integers are below 2^53 (see [literals] for those of the script). *)
Definition litF (q : Q) : float := (Z2F (Qnum q) / Z2F (Zpos (Qden q)))%float.

(** IEEE 754 binary64, the numbers of JavaScript. *)
#[export] Instance binary64 : Number float := {
  nadd := PrimFloat.add;
  nsub := PrimFloat.sub;
  nmul := PrimFloat.mul;
  ndiv := PrimFloat.div;
  nle := PrimFloat.leb;
  ngt := λ x y, PrimFloat.ltb y x;
  lit := litF;
}.

(** Exact rational arithmetic. *)
#[export] Instance exact : Number Q := {
  nadd := Qplus;
  nsub := Qminus;
  nmul := Qmult;
  ndiv := Qdiv;
  nle := Qle_bool;
  ngt := λ x y, negb (Qle_bool x y);
  lit := λ q, q;
}.

(** ** Objects and the store *)

Definition loc := nat.

Section Model.
Context {num : Type} `{Number num}.
Local Open Scope js_scope.

(** [canvas.clientWidth] and [canvas.clientHeight]. *)
Record Canvas := mkCanvas {
  clientWidth : num;
  clientHeight : num;
}.

(** The constants the script computes once, when it is loaded. *)
Record Globals := mkGlobals {
  POINT_SIZE : num;
  LINE_WIDTH : num;
  PIXELS_PER_SEC : num;
  ACCELERATION : num;
  plankWidth : num;
  plankHeight : num;
}.

(** The first variant of the script ([ACCELERATION = 1.1]). *)
Definition load (canvas : Canvas) : Globals := {|
  POINT_SIZE := clientHeight canvas * lit 0.025;
  LINE_WIDTH := clientWidth canvas * lit 0.0025;
  PIXELS_PER_SEC := clientWidth canvas * lit 0.333;
  ACCELERATION := lit 1.1;
  plankWidth := clientWidth canvas * lit 0.025;
  plankHeight := clientHeight canvas * lit 0.25;
|}.

(** The second variant of the script differs in [ACCELERATION = 1.01]. *)
Definition load_second (canvas : Canvas) : Globals := {|
  POINT_SIZE := clientHeight canvas * lit 0.025;
  LINE_WIDTH := clientWidth canvas * lit 0.0025;
  PIXELS_PER_SEC := clientWidth canvas * lit 0.333;
  ACCELERATION := lit 1.01;
  plankWidth := clientWidth canvas * lit 0.025;
  plankHeight := clientHeight canvas * lit 0.25;
|}.

(** The fields of [Drawable] that the update reads or writes (the GL buffer,
    primitive type and vertex count only matter to [draw]). *)
Record Drawable := mkDrawable {
  translation : num * num;
  moveVector : num * num;
  color : num * num * num * num;
}.

(** A JavaScript value, as far as [instanceof] tells them apart. *)
Inductive value :=
  | VUndefined
  | VNull
  | VBoolean (b : bool)
  | VNumber (n : num)
  | VString (s : string)
  | VObject (l : loc).

Record Keys := mkKeys { up : string; down : string }.

Record Plank := mkPlank {
  plank_super : Drawable;
  keys : Keys;
  keysPressed : gmap string bool;
}.

Record Ball := mkBall {
  ball_super : Drawable;
  collidables : list value;
  isInsideCollidable : bool;
}.

(** An object of the store, by class; [OOther] is any object that is not an
    instance of [Drawable]. *)
Inductive object :=
  | ODrawable (d : Drawable)
  | ODrawableTexture (d : Drawable)
  | OPlank (p : Plank)
  | OBall (b : Ball)
  | OOther.

(** The [Drawable] part of an object, if its class derives from [Drawable]. *)
Definition super (o : object) : option Drawable :=
  match o with
  | ODrawable d | ODrawableTexture d => Some d
  | OPlank p => Some (plank_super p)
  | OBall b => Some (ball_super b)
  | OOther => None
  end.

Definition with_super (f : Drawable → Drawable) (o : object) : object :=
  match o with
  | ODrawable d => ODrawable (f d)
  | ODrawableTexture d => ODrawableTexture (f d)
  | OPlank p => OPlank (mkPlank (f (plank_super p)) (keys p) (keysPressed p))
  | OBall b => OBall (mkBall (f (ball_super b)) (collidables b) (isInsideCollidable b))
  | OOther => OOther
  end.

(** The state a frame runs in: the canvas size, the objects, the [drawables]
    array, and [Math.random] as the sequence of its future results with the
    number of calls made so far. *)
Record World := mkWorld {
  canvas : Canvas;
  heap : gmap loc object;
  drawables : list loc;
  random : nat → num;
  calls : nat;
}.

(** ** Computations *)

Inductive exn :=
  | Error (msg : string)
  | TypeError (msg : string).

(** A computation returns a value or throws; either way it leaves a world. *)
Inductive outcome (A : Type) :=
  | Return (a : A) (w : World)
  | Throw (e : exn) (w : World).
Arguments Return {A} a w.
Arguments Throw {A} e w.

Definition M (A : Type) := World → outcome A.

#[export] Instance M_ret : MRet M := λ A a w, Return a w.
#[export] Instance M_bind : MBind M := λ A B f m w,
  match m w with
  | Return a w' => f a w'
  | Throw e w' => Throw e w'
  end.

Definition throw {A} (e : exn) : M A := λ w, Throw e w.

Definition world_of {A} (r : outcome A) : World :=
  match r with Return _ w | Throw _ w => w end.

Definition get_canvas : M Canvas := λ w, Return (canvas w) w.

Definition set_heap (h : gmap loc object) (w : World) : World :=
  mkWorld (canvas w) h (drawables w) (random w) (calls w).

(** Following a reference. *)
Definition deref (l : loc) : M object := λ w,
  match heap w !! l with
  | Some o => Return o w
  | None => Throw (TypeError "dangling reference") w
  end.

Definition store (l : loc) (o : object) : M unit := λ w,
  Return () (set_heap (<[l := o]> (heap w)) w).

(** [new]: the object gets a reference that is not in use. *)
Definition alloc (o : object) : M loc := λ w,
  let l := fresh (dom (heap w)) in
  Return l (set_heap (<[l := o]> (heap w)) w).

(** [drawables.push(obj)]. *)
Definition drawables_push (l : loc) : M unit := λ w,
  Return () (mkWorld (canvas w) (heap w) (drawables w ++ [l]) (random w) (calls w)).

(** [Math.random()]. *)
Definition Math_random : M num := λ w,
  Return (random w (calls w))
         (mkWorld (canvas w) (heap w) (drawables w) (random w) (S (calls w))).

(** Reading [this] as an instance of a class. *)
Definition this_drawable (this : loc) : M Drawable :=
  o ← deref this;
  match super o with
  | Some d => mret d
  | None => throw (TypeError "not a Drawable")
  end.

Definition this_plank (this : loc) : M Plank :=
  o ← deref this;
  match o with
  | OPlank p => mret p
  | _ => throw (TypeError "not a Plank")
  end.

Definition this_ball (this : loc) : M Ball :=
  o ← deref this;
  match o with
  | OBall b => mret b
  | _ => throw (TypeError "not a Ball")
  end.

(** Assignments to the fields of [this]. *)
Definition update_super (this : loc) (f : Drawable → Drawable) : M unit :=
  o ← deref this; store this (with_super f o).

Definition set_translation (this : loc) (t : num * num) : M unit :=
  update_super this (λ d, mkDrawable t (moveVector d) (color d)).

Definition set_moveVector (this : loc) (v : num * num) : M unit :=
  update_super this (λ d, mkDrawable (translation d) v (color d)).

Definition set_color (this : loc) (c : num * num * num * num) : M unit :=
  update_super this (λ d, mkDrawable (translation d) (moveVector d) c).

Definition set_isInsideCollidable (this : loc) (flag : bool) : M unit :=
  b ← this_ball this;
  store this (OBall (mkBall (ball_super b) (collidables b) flag)).

Definition set_collidables (this : loc) (objs : list value) : M unit :=
  b ← this_ball this;
  store this (OBall (mkBall (ball_super b) objs (isInsideCollidable b))).

(** The collision box of a drawable. *)
Record Range := mkRange { xmin : num; xmax : num; ymin : num; ymax : num }.

(** [obj instanceof Drawable]. *)
Definition instanceof_Drawable (w : World) (obj : value) : bool :=
  match obj with
  | VObject l =>
      match heap w !! l with
      | Some o => bool_decide (is_Some (super o))
      | None => false
      end
  | _ => false
  end.

End Model.

Arguments Canvas num : clear implicits.
Arguments Globals num : clear implicits.
Arguments Drawable num : clear implicits.
Arguments value num : clear implicits.
Arguments Plank num : clear implicits.
Arguments Ball num : clear implicits.
Arguments object num : clear implicits.
Arguments World num : clear implicits.
Arguments Range num : clear implicits.
Arguments outcome num A : clear implicits.
Arguments M num A : clear implicits.
Arguments Return {num A} a w.
Arguments Throw {num A} e w.

(** ** The classes of the script *)

Module Drawable.
Section Methods.
Context {num : Type} `{Number num}.
Variable G : Globals num.
Local Open Scope js_scope.

(** The body of [getCollisionRange()]: the box is anchored at the
    translation and has the paddle's width and height. *)
Definition getCollisionRange (d : Drawable num) : Range num := {|
  xmin := (translation d).1;
  xmax := (translation d).1 + plankWidth G;
  ymin := (translation d).2;
  ymax := (translation d).2 + plankHeight G;
|}.

(** The call [obj.getCollisionRange()]: every class inherits the method from
    [Drawable]; nothing else has it. *)
Definition call_getCollisionRange (obj : value num) : M num (Range num) :=
  match obj with
  | VObject l =>
      o ← deref l;
      match super o with
      | Some d => mret (getCollisionRange d)
      | None => throw (TypeError "obj.getCollisionRange is not a function")
      end
  | _ => throw (TypeError "obj.getCollisionRange is not a function")
  end.

Definition randomColor : M num (num * num * num * num) :=
  r ← Math_random;
  g ← Math_random;
  b ← Math_random;
  mret (r, g, b, lit 1).

Definition randomMoveVector : M num (num * num) :=
  r0 ← Math_random;
  r1 ← Math_random;
  mret (if r0 >? lit 0.5 then lit 1 else lit (-1),
        ((r1 * lit 2) - lit 1) * lit 0.5).

(** The constructor: [translation || [0, 0]] and
    [color || this.randomColor()]. *)
Definition constructor (tr : option (num * num))
    (col : option (num * num * num * num)) : M num (Drawable num) :=
  c ← match col with Some c => mret c | None => randomColor end;
  mret (mkDrawable (default (lit 0, lit 0) tr) (lit 0, lit 0) c).

Definition new (tr : option (num * num))
    (col : option (num * num * num * num)) : M num loc :=
  d ← constructor tr col;
  alloc (ODrawable d).

End Methods.
End Drawable.

Module DrawableTexture.
Section Methods.
Context {num : Type} `{Number num}.

Definition new (tr : option (num * num))
    (col : option (num * num * num * num)) : M num loc :=
  d ← Drawable.constructor tr col;
  alloc (ODrawableTexture d).

End Methods.
End DrawableTexture.

Module Plank.
Section Methods.
Context {num : Type} `{Number num}.
Variable G : Globals num.
Local Open Scope js_scope.

Definition new (ks : option Keys) (tr : option (num * num))
    (col : option (num * num * num * num)) : M num loc :=
  d ← Drawable.constructor tr col;
  alloc (OPlank (mkPlank (mkDrawable (translation d) (lit 0, lit 1) (color d))
                         (default (mkKeys "w" "s") ks) ∅)).

(** [this.keysPressed[key] === true]. *)
Definition held (p : Plank num) (key : string) : bool :=
  bool_decide (keysPressed p !! key = Some true).

Definition moveUpdate (this : loc) (deltaTime : num) : M num unit :=
  p ← this_plank this;
  (if held p (up (keys p)) then
     d ← this_drawable this;
     set_translation this
       ((translation d).1, (translation d).2 + PIXELS_PER_SEC G * deltaTime)
   else mret ());;
  (if held p (down (keys p)) then
     d ← this_drawable this;
     set_translation this
       ((translation d).1, (translation d).2 - PIXELS_PER_SEC G * deltaTime)
   else mret ()).

(** The listener a plank installs on the window for [keydown]
    ([pressed = true]) and for [keyup] ([pressed = false]):
    [this.keysPressed[event.key] = pressed]. Assigning a boolean to
    [__proto__] leaves a JavaScript object as it is. *)
Definition listener (pressed : bool) (key : string) (o : object num) : object num :=
  match o with
  | OPlank p =>
      if bool_decide (key = "__proto__") then o
      else OPlank (mkPlank (plank_super p) (keys p) (<[key := pressed]> (keysPressed p)))
  | _ => o
  end.

End Methods.
End Plank.

Module Ball.
Section Methods.
Context {num : Type} `{Number num}.
Variable G : Globals num.
Local Open Scope js_scope.

Definition new (tr mv : option (num * num))
    (col : option (num * num * num * num)) : M num loc :=
  d ← Drawable.constructor tr col;
  v ← match mv with Some v => mret v | None => Drawable.randomMoveVector end;
  alloc (OBall (mkBall (mkDrawable (translation d) v (color d)) [] false)).

Definition registerCollisionObject (this : loc) (obj : value num) : M num unit :=
  isDrawable ← (λ w, Return (instanceof_Drawable w obj) w);
  if negb isDrawable then throw (Error "Object must be of type Drawable")
  else
    b ← this_ball this;
    set_collidables this (collidables b ++ [obj]).

Definition bounce (this : loc) (modifiers : option (num * num)) : M num unit :=
  match modifiers with
  | Some (m0, m1) =>
      set_isInsideCollidable this true;;
      d ← this_drawable this;
      set_moveVector this ((moveVector d).1 * m0 * ACCELERATION G, (moveVector d).2);;
      d ← this_drawable this;
      set_moveVector this ((moveVector d).1, (moveVector d).2 * m1 * ACCELERATION G)
  | None =>
      set_isInsideCollidable this false
  end.

(** The point [(x, y)] lies in [range] expanded by [ballOffset] on all sides. *)
Definition within (x y ballOffset : num) (range : Range num) : bool :=
  (xmin range - ballOffset <=? x) && (x <=? xmax range + ballOffset) &&
  (ymin range - ballOffset <=? y) && (y <=? ymax range + ballOffset).

(** The test of the loop's [if], for one collidable's range. *)
Definition overlaps (inside : bool) (x y ballOffset : num) (range : Range num) : bool :=
  negb inside && within x y ballOffset range.

(** The [for] loop of [detectCollision]: [Some] modifiers when an iteration
    returns, [None] when the loop runs to its end. *)
Fixpoint detectCollision_loop (this : loc) (x y ballOffset : num)
    (objs : list (value num)) : M num (option (num * num)) :=
  match objs with
  | [] => mret None
  | obj :: rest =>
      range ← Drawable.call_getCollisionRange G obj;
      b ← this_ball this;
      if overlaps (isInsideCollidable b) x y ballOffset range
      then mret (Some (lit (-1), lit 1))
      else detectCollision_loop this x y ballOffset rest
  end.

Definition detectCollision (this : loc) : M num (option (num * num)) :=
  b ← this_ball this;
  let x := (translation (ball_super b)).1 in
  let y := (translation (ball_super b)).2 in
  let ballOffset := POINT_SIZE G / lit 2 in
  hit ← detectCollision_loop this x y ballOffset (collidables b);
  match hit with
  | Some modifiers => mret (Some modifiers)
  | None =>
      c ← get_canvas;
      if (y <=? lit 0) || (clientHeight c <=? y) then mret (Some (lit 1, lit (-1)))
      else
        (if (x <=? lit 0) || (clientWidth c <=? x) then
           set_translation this (clientWidth c / lit 2, clientHeight c / lit 2);;
           v ← Drawable.randomMoveVector;
           set_moveVector this v;;
           col ← Drawable.randomColor;
           set_color this col
         else mret ());;
        mret None
  end.

Definition moveUpdate (this : loc) (deltaTime : num) : M num unit :=
  modifiers ← detectCollision this;
  bounce this modifiers;;
  d ← this_drawable this;
  set_translation this
    ((translation d).1 + PIXELS_PER_SEC G * (moveVector d).1 * deltaTime,
     (translation d).2);;
  d ← this_drawable this;
  set_translation this
    ((translation d).1,
     (translation d).2 + PIXELS_PER_SEC G * (moveVector d).2 * deltaTime).

End Methods.
End Ball.

(** ** The top level of the script *)

Section Script.
Context {num : Type} `{Number num}.
Variable G : Globals num.
Local Open Scope js_scope.

(** A key event on the window runs the listener of every plank. *)
Definition keydown (key : string) : M num unit := λ w,
  Return () (set_heap (Plank.listener true key <$> heap w) w).

Definition keyup (key : string) : M num unit := λ w,
  Return () (set_heap (Plank.listener false key <$> heap w) w).

(** The call [obj.moveUpdate(deltaTime)], dispatched on the class of [obj];
    the method of [Drawable] does nothing. *)
Definition call_moveUpdate (obj : loc) (deltaTime : num) : M num unit :=
  o ← deref obj;
  match o with
  | ODrawable _ | ODrawableTexture _ => mret ()
  | OPlank _ => Plank.moveUpdate G obj deltaTime
  | OBall _ => Ball.moveUpdate G obj deltaTime
  | OOther => throw (TypeError "obj.moveUpdate is not a function")
  end.

Fixpoint moveUpdate_all (objs : list loc) (deltaTime : num) : M num unit :=
  match objs with
  | [] => mret ()
  | obj :: rest => call_moveUpdate obj deltaTime;; moveUpdate_all rest deltaTime
  end.

(** The updates of one frame of [drawScene]: every drawable, in the order of
    the array. *)
Definition drawScene_update (deltaTime : num) : M num unit :=
  λ w, moveUpdate_all (drawables w) deltaTime w.

(** [drawables[i]]: [undefined] past the end of the array. *)
Definition drawables_at (i : nat) : M num (value num) := λ w,
  Return (from_option VObject VUndefined (drawables w !! i)) w.

Definition addNewBall (col : option (num * num * num * num)) : M num unit :=
  c ← get_canvas;
  ball ← Ball.new (Some (clientWidth c / lit 2, clientHeight c / lit 2)) None col;
  d0 ← drawables_at 0;
  Ball.registerCollisionObject ball d0;;
  d1 ← drawables_at 1;
  Ball.registerCollisionObject ball d1;;
  drawables_push ball.

(** The statements that fill [drawables]: two planks, the centre field, the
    centre line and one red ball. *)
Definition main : M num unit :=
  c ← get_canvas;
  p0 ← Plank.new None None (Some (lit 0, lit 0, lit 0, lit 0));
  drawables_push p0;;
  p1 ← Plank.new (Some (mkKeys "o" "l"))
         (Some (clientWidth c - plankWidth G, clientHeight c - plankHeight G))
         (Some (lit 0, lit 0, lit 0, lit 0));
  drawables_push p1;;
  f ← DrawableTexture.new (Some (clientWidth c / lit 2, clientHeight c / lit 2))
        (Some (lit 0, lit 0, lit 0, lit 1));
  drawables_push f;;
  l ← Drawable.new (Some (clientWidth c / lit 2, lit 0))
        (Some (lit 0, lit 0, lit 0, lit 1));
  drawables_push l;;
  addNewBall (Some (lit 1, lit 0, lit 0, lit 1)).

(** The [keypress] listener of the window: a backtick adds a ball of random
    colour. *)
Definition keypress (key : string) : M num unit :=
  if bool_decide (key = "`") then addNewBall None else mret ().

(** [drawScene(now)] without the rendering: [now *= 0.001], the time since
    the previous frame, and the updates. The global [then] is passed in and
    its new value is returned. *)
Definition drawScene (now then_ : num) : M num num :=
  let now := now * lit 0.001 in
  let deltaTime := now - then_ in
  drawScene_update deltaTime;;
  mret now.

(** What the window does to the script: it calls [drawScene] for an
    animation frame with its timestamp, it delivers a key event with its
    [event.key], or it gives the canvas another display size. *)
Inductive event :=
  | Frame (now : num)
  | KeyDown (key : string)
  | KeyUp (key : string)
  | KeyPress (key : string)
  | Resize (size : Canvas num).

(** The canvas is laid out again: [canvas.clientWidth] and
    [canvas.clientHeight] change; the constants computed from them when the
    script was loaded do not. *)
Definition resize (size : Canvas num) : M num unit := λ w,
  Return () (mkWorld size (heap w) (drawables w) (random w) (calls w)).

Definition dispatch (e : event) (then_ : num) : M num num :=
  match e with
  | Frame now => drawScene now then_
  | KeyDown key => keydown key;; mret then_
  | KeyUp key => keyup key;; mret then_
  | KeyPress key => keypress key;; mret then_
  | Resize size => resize size;; mret then_
  end.

(** A run of the handlers over a sequence of events, up to the first
    exception that none of them catches. *)
Fixpoint run (events : list event) (then_ : num) : M num num :=
  match events with
  | [] => mret then_
  | e :: rest => t ← dispatch e then_; run rest t
  end.


End Script.

Arguments event num : clear implicits.

(** ** Texture sizes *)

(** [ToInt32] on an integer: the 32 low bits, read as a signed number. *)
Definition ToInt32 (z : Z) : Z := ((z + 2 ^ 31) mod 2 ^ 32 - 2 ^ 31)%Z.

(** [isPowerOf2(value)] for an integer [value] (an image's width or height;
    the doubles represent integers, and [value - 1], exactly up to 2^53):
    [&] works on the [ToInt32] of its operands. *)
Definition isPowerOf2 (value : Z) : bool :=
  (Z.land (ToInt32 value) (ToInt32 (value - 1)) =? 0)%Z.

(** ** The size of the drawing buffer *)

(** [resizeCanvasToDisplaySize(canvas, multiplier)], for a canvas whose four
    sizes are integers and a multiplier that is an integer or is not given
    (as in [drawScene]); the products are exact in doubles up to 2^53, and
    [| 0] is [ToInt32]. The result is the value returned and the canvas
    after the call. *)
Module Display.
Local Open Scope Z_scope.

Record canvas := mkCanvas {
  clientWidth : Z;
  clientHeight : Z;
  width : Z;
  height : Z;
}.



End Display.

(** ** Observations on worlds and outcomes *)

Section Observations.
Context {num : Type} `{Number num}.
Local Open Scope js_scope.

Implicit Types (w : World num) (b : Ball num) (G : Globals num) (obj : value num).

Definition ball_at w (this : loc) : option (Ball num) :=
  match heap w !! this with
  | Some (OBall b) => Some b
  | _ => None
  end.

Definition plank_at w (this : loc) : option (Plank num) :=
  match heap w !! this with
  | Some (OPlank p) => Some p
  | _ => None
  end.

Definition returns {A} (r : outcome num A) : bool :=
  match r with Return _ _ => true | Throw _ _ => false end.

Definition result_of {A} (r : outcome num A) : option A :=
  match r with Return a _ => Some a | Throw _ _ => None end.

(** The collision box a registered value has in world [w]. *)
Definition range_in G w obj : option (Range num) :=
  match obj with
  | VObject l => Drawable.getCollisionRange G <$> (heap w !! l ≫= super)
  | _ => None
  end.

(** Ball [b] is positioned inside the expanded collision box of [obj]. *)
Definition touches G w b obj : bool :=
  match range_in G w obj with
  | Some range =>
      Ball.within (translation (ball_super b)).1 (translation (ball_super b)).2
             (POINT_SIZE G / lit 2) range
  | None => false
  end.

(** Ball [b] is positioned inside the expanded box of one of its collidables. *)
Definition touches_any G w b : bool :=
  existsb (touches G w b) (collidables b).

(** Ball [b] is at or beyond the top or bottom edge of the field. *)
Definition at_top_bottom w b : bool :=
  ((translation (ball_super b)).2 <=? lit 0) ||
  (clientHeight (canvas w) <=? (translation (ball_super b)).2).

(** Ball [b] is at or beyond the left or right edge of the field. *)
Definition at_side w b : bool :=
  ((translation (ball_super b)).1 <=? lit 0) ||
  (clientWidth (canvas w) <=? (translation (ball_super b)).1).

(** Every registered collidable is a live instance of [Drawable]. *)
Definition registered_ok w b : bool :=
  forallb (instanceof_Drawable w) (collidables b).

(** The ball after a reset: at the centre of the field, with the next two
    results of [Math.random] in its velocity and the three after them in its
    colour. *)
Definition reset_ball w b : Ball num :=
  let r := λ i, random w (i + calls w)%nat in
  mkBall (mkDrawable
            (clientWidth (canvas w) / lit 2, clientHeight (canvas w) / lit 2)
            (if r 0%nat >? lit 0.5 then lit 1 else lit (-1),
             ((r 1%nat * lit 2) - lit 1) * lit 0.5)
            (r 2%nat, r 3%nat, r 4%nat, lit 1))
         (collidables b) (isInsideCollidable b).

(** The world after a reset: five more calls of [Math.random] were made. *)
Definition reset_world w (this : loc) b : World num :=
  mkWorld (canvas w) (<[this := OBall (reset_ball w b)]> (heap w))
    (drawables w) (random w) (5 + calls w)%nat.

(** World [w] with ball [b] stored at [this]. *)
Definition put_ball w (this : loc) b : World num :=
  set_heap (<[this := OBall b]> (heap w)) w.

(** World [w] with plank [p] stored at [this]. *)
Definition put_plank w (this : loc) (p : Plank num) : World num :=
  set_heap (<[this := OPlank p]> (heap w)) w.

(** Plank [p] with its Y translation replaced by [y]. *)
Definition at_height (p : Plank num) (y : num) : Plank num :=
  mkPlank (mkDrawable ((translation (plank_super p)).1, y)
             (moveVector (plank_super p)) (color (plank_super p)))
          (keys p) (keysPressed p).

(** The flag of the ball stored at [this]. *)
Definition flag_at w (this : loc) : option bool :=
  isInsideCollidable <$> ball_at w this.

(** Ball [b] after [bounce(modifiers)]. *)
Definition bounced G (modifiers : option (num * num)) b : Ball num :=
  match modifiers with
  | Some (m0, m1) =>
      mkBall (mkDrawable (translation (ball_super b))
                ((moveVector (ball_super b)).1 * m0 * ACCELERATION G,
                 (moveVector (ball_super b)).2 * m1 * ACCELERATION G)
                (color (ball_super b)))
             (collidables b) true
  | None => mkBall (ball_super b) (collidables b) false
  end.

(** Ball [b] after the two position updates that end [Ball.moveUpdate]. *)
Definition moved G (deltaTime : num) b : Ball num :=
  mkBall (mkDrawable
            ((translation (ball_super b)).1
               + PIXELS_PER_SEC G * (moveVector (ball_super b)).1 * deltaTime,
             (translation (ball_super b)).2
               + PIXELS_PER_SEC G * (moveVector (ball_super b)).2 * deltaTime)
            (moveVector (ball_super b)) (color (ball_super b)))
         (collidables b) (isInsideCollidable b).

(** What no update changes in an object: its class, the keys of a plank and
    the collidables of a ball. *)
Inductive kind :=
  | KDrawable
  | KDrawableTexture
  | KPlank (ks : Keys)
  | KBall (objs : list (value num))
  | KOther.

Definition kind_of (o : object num) : kind :=
  match o with
  | ODrawable _ => KDrawable
  | ODrawableTexture _ => KDrawableTexture
  | OPlank p => KPlank (keys p)
  | OBall b => KBall (collidables b)
  | OOther => KOther
  end.

Definition kinds w : gmap loc kind := kind_of <$> heap w.

(** An object whose [moveUpdate] can run: an instance of [Drawable], with
    instances of [Drawable] for collidables when it is a ball. *)
Definition object_ok w (o : object num) : bool :=
  match o with
  | OBall b => registered_ok w b
  | OOther => false
  | _ => true
  end.

Definition drawable_ok w (l : loc) : bool :=
  match heap w !! l with
  | Some o => object_ok w o
  | None => false
  end.

(** Every entry of [drawables] is such an object, and the first two of them
    are there for a new ball to register. *)
Definition scene_ok w : bool :=
  forallb (drawable_ok w) (drawables w) && bool_decide (2 ≤ length (drawables w)).

(** The plank stored at [this] holds the key [key] down. *)
Definition holds w (this : loc) (key : string) : bool :=
  match plank_at w this with
  | Some p => Plank.held p key
  | None => false
  end.

(** World [w'] has the canvas, the [drawables] and the results of
    [Math.random] of [w], and every object has kept its kind. *)
Definition same_scene w w' : Prop :=
  canvas w' = canvas w ∧ drawables w' = drawables w ∧ random w' = random w ∧
  kinds w' = kinds w.

(** What no handler changes in an object: a drawable that is neither a
    plank nor a ball as a whole; the keys, the X translation, the
    [moveVector] and the colour of a plank; the collidables of a ball. *)
Definition stable (o o' : object num) : Prop :=
  match o, o' with
  | ODrawable d, ODrawable d' => d' = d
  | ODrawableTexture d, ODrawableTexture d' => d' = d
  | OPlank p, OPlank p' =>
      keys p' = keys p ∧
      (translation (plank_super p')).1 = (translation (plank_super p)).1 ∧
      moveVector (plank_super p') = moveVector (plank_super p) ∧
      color (plank_super p') = color (plank_super p)
  | OBall b, OBall b' => collidables b' = collidables b
  | OOther, OOther => True
  | _, _ => False
  end.

(** Every object of [w] is still there in [w'], with all of that. *)
Definition keeps w w' : Prop :=
  ∀ l o, heap w !! l = Some o → ∃ o', heap w' !! l = Some o' ∧ stable o o'.

(** The ball [addNewBall(drawables, color)] makes in world [w], [l0] and
    [l1] being the first two drawables: a colour that is not given takes
    three results of [Math.random], then the velocity takes two. *)
Definition new_ball w (col : option (num * num * num * num)) (l0 l1 : loc) : Ball num :=
  let r := λ i, random w (i + calls w)%nat in
  let n := match col with Some _ => 0%nat | None => 3%nat end in
  mkBall (mkDrawable
            (clientWidth (canvas w) / lit 2, clientHeight (canvas w) / lit 2)
            (if r n >? lit 0.5 then lit 1 else lit (-1),
             ((r (S n) * lit 2) - lit 1) * lit 0.5)
            (default (r 0%nat, r 1%nat, r 2%nat, lit 1) col))
         [VObject l0; VObject l1] false.

(** The world after that call: the ball at a new reference, which is pushed
    on [drawables]. *)
Definition with_new_ball w (col : option (num * num * num * num)) (l0 l1 : loc)
    : World num :=
  let l := fresh (dom (heap w)) in
  mkWorld (canvas w) (<[l := OBall (new_ball w col l0 l1)]> (heap w))
    (drawables w ++ [l]) (random w)
    (match col with Some _ => 2 | None => 5 end + calls w)%nat.

(** Plank [p] after [Plank.moveUpdate]. *)
Definition plank_moved G (deltaTime : num) (p : Plank num) : Plank num :=
  let y := (translation (plank_super p)).2 in
  let step := PIXELS_PER_SEC G * deltaTime in
  if Plank.held p (up (keys p)) then
    if Plank.held p (down (keys p)) then at_height p ((y + step) - step)
    else at_height p (y + step)
  else
    if Plank.held p (down (keys p)) then at_height p (y - step)
    else p.

(** The number of backtick key presses among the events. *)
Fixpoint backticks (events : list (event num)) : nat :=
  match events with
  | [] => 0
  | KeyPress key :: rest => (if bool_decide (key = "`") then 1 else 0) + backticks rest
  | _ :: rest => backticks rest
  end.

End Observations.

Arguments kind num : clear implicits.

(** The sign of a double, read off its IEEE 754 form; a NaN has none. *)
Definition SFsign (x : spec_float) : option bool :=
  match x with
  | S754_zero s | S754_infinity s | S754_finite s _ _ => Some s
  | S754_nan => None
  end.

Definition sign (x : float) : option bool := SFsign (Prim2SF x).

(** A double of magnitude at most [2^k]: zero, below [2^k], or [2^k]. *)
Definition SFsmall (k : Z) (x : spec_float) : Prop :=
  match x with
  | S754_zero _ => True
  | S754_finite _ m e =>
      (Zpos (digits2_pos m) + e <= k)%Z ∨ (m = 4503599627370496%positive ∧ e = (k - 52)%Z)
  | _ => False
  end.

(** ** Sample worlds *)

(** A field of 1000 by 600 pixels, in doubles. *)
Module Sample.
Local Open Scope float_scope.

Definition field : Canvas float := mkCanvas 1000 600.

(** POINT_SIZE = 15, PIXELS_PER_SEC = 333, ACCELERATION = 1.1, planks of
    25 by 150. *)
Definition K : Globals float := load field.

(** The results of [Math.random]: 0.75, 0.25, 0.75, 0.25, ... *)
Definition rolls (n : nat) : float := if Nat.even n then 0.75 else 0.25.

(** The world once the script has run: planks at references 0 and 1, the
    centre field at 2, the centre line at 3 and the ball at 4. *)
Definition start : World float := world_of (main K (mkWorld field ∅ [] rolls 0)).

(** A world with nothing but the canvas and [Math.random]. *)
Definition dice : World float := mkWorld field ∅ [] rolls 0.

Definition the_ball : loc := 4%nat.
Definition left_plank : loc := 0%nat.

Definition ball_with (t v : float * float) (flag : bool) : Ball float :=
  mkBall (mkDrawable t v (1, 0, 0, 1)) [VObject 0%nat; VObject 1%nat] flag.

(** The ball on the corner of the left plank's expanded box, flag down. *)
Definition corner_ball : Ball float := ball_with (32.5, 157.5) (1, -0.25) false.
Definition at_corner : World float := put_ball start the_ball corner_ball.

(** The ball on the top edge of the field, clear of both planks, flag down. *)
Definition edge_ball : Ball float := ball_with (40, 0) (-1, -0.25) false.
Definition at_edge : World float := put_ball start the_ball edge_ball.

(** The ball on the left edge of the field at half height, moving left. *)
Definition exit_ball : Ball float := ball_with (0, 300) (-1, 0) false.
Definition at_exit : World float := put_ball start the_ball exit_ball.

(** The ball on the bottom edge near the left wall, moving down and left. *)
Definition low_ball : Ball float := ball_with (3, 600) (-1, 0.3) false.
Definition at_low : World float := put_ball start the_ball low_ball.

(** The left plank after a frame of 20 ms with its up key held, with both of
    its keys held from then on. *)
Definition both_held : World float :=
  world_of ((keydown "w";; drawScene_update K 0.02;; keydown "s") start).

End Sample.

(** The same field in exact arithmetic, [Math.random] always giving 3/4. *)
Module SampleQ.
Local Open Scope Q_scope.

Definition field : Canvas Q := mkCanvas 1000 600.
Definition K : Globals Q := load field.
Definition start : World Q := world_of (main K (mkWorld field ∅ [] (λ _, 3 # 4) 0)).

Definition both_held : World Q :=
  world_of ((keydown "w";; drawScene_update K 0.02;; keydown "s") start).

End SampleQ.

(** * Properties *)

(** Reading back what was just stored, and overwriting it. *)
Ltac run_store :=
  repeat first [ rewrite lookup_insert_eq | rewrite insert_insert_eq | progress simpl ].

(** ** The model on the sample field *)

Section Checks.
Local Open Scope float_scope.

(** The literals of the script, read as doubles. *)
Example literals :
  (litF 0, litF 1, litF (-1), litF 2, litF 0.5, litF 0.25,
   litF 0.025, litF 0.0025, litF 0.333, litF 1.1, litF 1.01)
  = (0, 1, -1, 2, 0.5, 0.25, 0.025, 0.0025, 0.333, 1.1, 1.01).
Proof. vm_compute. reflexivity. Qed.

Example constants_1000_by_600 :
  Sample.K = mkGlobals 15 2.5 333 1.1 25 150.
Proof. vm_compute. reflexivity. Qed.

(** The scene the script builds: five drawables, the last one a ball at the
    centre with both planks registered, after two calls of Math.random. *)
Example scene :
  drawables Sample.start = [0; 1; 2; 3; 4]%nat ∧
  (translation ∘ plank_super <$> plank_at Sample.start 0%nat) = Some (0, 0) ∧
  (translation ∘ plank_super <$> plank_at Sample.start 1%nat) = Some (975, 450) ∧
  ball_at Sample.start 4%nat
    = Some (mkBall (mkDrawable (500, 300) (1, -0.25) (1, 0, 0, 1))
              [VObject 0%nat; VObject 1%nat] false) ∧
  calls Sample.start = 2%nat.
Proof. vm_compute. repeat split; reflexivity. Qed.

(** Three frames of 16 ms from the corner of the left plank's box: the X
    velocity is inverted on the first and on the third. *)
Example three_frames :
  let frame := λ w, world_of (Ball.moveUpdate Sample.K Sample.the_ball 0.016 w) in
  let vx := λ w, (fst ∘ moveVector ∘ ball_super) <$> ball_at w Sample.the_ball in
  vx Sample.at_corner = Some 1 ∧
  vx (frame Sample.at_corner) = Some (-1.1) ∧
  vx (frame (frame Sample.at_corner)) = Some (-1.1) ∧
  vx (frame (frame (frame Sample.at_corner))) = Some (1.1 * 1.1).
Proof. vm_compute. repeat split; reflexivity. Qed.

(** The sampler in doubles, at the ends of the range of Math.random: 0, 1/2
    and the two doubles next to 1/2 and to 1. *)
Example sampler_at_the_ends :
  let draw := λ r0 r1,
    result_of (Drawable.randomMoveVector
                 (mkWorld Sample.field ∅ [] (λ n, if Nat.even n then r0 else r1) 0)) in
  draw 0 0 = Some (-1, -0.5) ∧
  draw 0.5 0.5 = Some (-1, 0) ∧
  draw 0.50000000000000011 0.99999999999999989 = Some (1, 0.49999999999999989).
Proof. vm_compute. repeat split; reflexivity. Qed.

End Checks.

(** ** The primitives of the store *)

Section Generic.
Context {num : Type} `{Number num}.
Variable G : Globals num.
Local Open Scope js_scope.

Implicit Types (w : World num) (this : loc) (b : Ball num) (p : Plank num)
  (d : Drawable num) (o : object num) (obj : value num).

Lemma bind_Return {A B} (m : M num A) (f : A → M num B) w a w' :
  m w = Return a w' → (m ≫= f) w = f a w'.
Proof. intros E. unfold mbind, M_bind. now rewrite E. Qed.

Lemma deref_Some w l o : heap w !! l = Some o → deref l w = Return o w.
Proof. intros E. unfold deref. now rewrite E. Qed.

Lemma this_ball_Some w this b :
  heap w !! this = Some (OBall b) → this_ball this w = Return b w.
Proof. intros E. unfold this_ball. now rewrite (bind_Return _ _ _ _ _ (deref_Some _ _ _ E)). Qed.

Lemma this_plank_Some w this p :
  heap w !! this = Some (OPlank p) → this_plank this w = Return p w.
Proof. intros E. unfold this_plank. now rewrite (bind_Return _ _ _ _ _ (deref_Some _ _ _ E)). Qed.

Lemma this_drawable_Some w this o d :
  heap w !! this = Some o → super o = Some d → this_drawable this w = Return d w.
Proof.
  intros E S. unfold this_drawable.
  rewrite (bind_Return _ _ _ _ _ (deref_Some _ _ _ E)). now rewrite S.
Qed.

Lemma update_super_Some w this o f :
  heap w !! this = Some o →
  update_super this f w = Return () (set_heap (<[this := with_super f o]> (heap w)) w).
Proof.
  intros E. unfold update_super.
  now rewrite (bind_Return _ _ _ _ _ (deref_Some _ _ _ E)).
Qed.

Lemma ball_at_Some w this b : ball_at w this = Some b ↔ heap w !! this = Some (OBall b).
Proof.
  unfold ball_at. destruct (heap w !! this) as [[]|]; split; congruence.
Qed.

Lemma plank_at_Some w this p : plank_at w this = Some p ↔ heap w !! this = Some (OPlank p).
Proof.
  unfold plank_at. destruct (heap w !! this) as [[]|]; split; congruence.
Qed.

(** *** The collision test *)

Lemma getCollisionRange_registered w obj :
  instanceof_Drawable w obj = true →
  ∃ range, range_in G w obj = Some range ∧ Drawable.call_getCollisionRange G obj w = Return range w.
Proof.
  destruct obj as [| | | | |l]; simpl; try discriminate.
  destruct (heap w !! l) as [o|] eqn:E; [|discriminate].
  intros I. apply bool_decide_eq_true in I. destruct I as [d S].
  exists (Drawable.getCollisionRange G d). split.
  - simpl. now rewrite S.
  - rewrite (bind_Return _ _ _ _ _ (deref_Some _ _ _ E)). now rewrite S.
Qed.

(** The loop returns [[-1, 1]] exactly when the flag is down and the ball lies
    in the expanded box of some collidable; it leaves the world as it was. *)
Lemma detectCollision_loop_spec w this b x y ballOffset objs :
  heap w !! this = Some (OBall b) →
  forallb (instanceof_Drawable w) objs = true →
  Ball.detectCollision_loop G this x y ballOffset objs w =
    Return (if negb (isInsideCollidable b) &&
               existsb (λ obj, match range_in G w obj with
                               | Some range => Ball.within x y ballOffset range
                               | None => false
                               end) objs
            then Some (lit (-1), lit 1) else None) w.
Proof.
  intros Hb. induction objs as [|obj rest IH]; simpl.
  - intros _. now rewrite andb_false_r.
  - intros Hreg. apply andb_prop in Hreg as [Hobj Hrest].
    destruct (getCollisionRange_registered w obj Hobj) as (range & Hr & Hget).
    rewrite (bind_Return _ _ _ _ _ Hget).
    rewrite (bind_Return _ _ _ _ _ (this_ball_Some _ _ _ Hb)).
    rewrite Hr. unfold Ball.overlaps.
    destruct (isInsideCollidable b); simpl.
    + rewrite (IH Hrest). reflexivity.
    + destruct (Ball.within x y ballOffset range); simpl; [reflexivity|].
      rewrite (IH Hrest). reflexivity.
Qed.

Lemma detectCollision_spec w this b :
  heap w !! this = Some (OBall b) →
  registered_ok w b = true →
  Ball.detectCollision G this w =
    if negb (isInsideCollidable b) && touches_any G w b
    then Return (Some (lit (-1), lit 1)) w
    else if at_top_bottom w b then Return (Some (lit 1, lit (-1))) w
    else if at_side w b then Return None (reset_world w this b)
    else Return None w.
Proof.
  intros Hb Hreg. unfold Ball.detectCollision.
  rewrite (bind_Return _ _ _ _ _ (this_ball_Some _ _ _ Hb)).
  rewrite (bind_Return _ _ _ _ _
             (detectCollision_loop_spec w this b _ _ _ _ Hb Hreg)).
  unfold touches_any, touches.
  destruct (negb (isInsideCollidable b) && _); [reflexivity|].
  unfold mbind at 1, M_bind at 1, get_canvas.
  unfold at_top_bottom, at_side.
  destruct (_ || _); [reflexivity|].
  destruct (_ || _); [|reflexivity].
  unfold set_translation, set_moveVector, set_color.
  unfold mbind, M_bind.
  rewrite (update_super_Some _ _ _ _ Hb). simpl.
  unfold update_super, mbind, M_bind, deref. simpl.
  rewrite lookup_insert_eq. simpl.
  rewrite lookup_insert_eq. simpl.
  unfold reset_world, reset_ball, set_heap. simpl.
  rewrite !insert_insert_eq. reflexivity.
Qed.

(** *** Bounce and integration *)

Lemma bounce_spec w this b modifiers :
  heap w !! this = Some (OBall b) →
  Ball.bounce G this modifiers w = Return () (put_ball w this (bounced G modifiers b)).
Proof.
  intros Hb. destruct modifiers as [[m0 m1]|]; simpl.
  - unfold set_isInsideCollidable, set_moveVector, this_drawable, update_super.
    unfold mbind, M_bind, this_ball, store, deref, mret, M_ret. simpl.
    unfold mbind, M_bind. rewrite Hb. unfold put_ball, set_heap.
    run_store. destruct b as [[t v c] cs f]. reflexivity.
  - unfold set_isInsideCollidable.
    rewrite (bind_Return _ _ _ _ _ (this_ball_Some _ _ _ Hb)). reflexivity.
Qed.

Lemma moveUpdate_from_detect w this deltaTime modifiers w' b' :
  Ball.detectCollision G this w = Return modifiers w' →
  heap w' !! this = Some (OBall b') →
  Ball.moveUpdate G this deltaTime w =
    Return () (put_ball w' this (moved G deltaTime (bounced G modifiers b'))).
Proof.
  intros Hd Hb. unfold Ball.moveUpdate.
  rewrite (bind_Return _ _ _ _ _ Hd).
  rewrite (bind_Return _ _ _ _ _ (bounce_spec _ _ _ modifiers Hb)).
  unfold set_translation, this_drawable, update_super.
  unfold mbind, M_bind, store, deref, mret, M_ret, put_ball, set_heap.
  run_store. destruct modifiers as [[m0 m1]|]; reflexivity.
Qed.

(** One frame of the ball, in closed form. *)
Lemma moveUpdate_spec w this b deltaTime :
  heap w !! this = Some (OBall b) →
  registered_ok w b = true →
  Ball.moveUpdate G this deltaTime w =
    if negb (isInsideCollidable b) && touches_any G w b
    then Return () (put_ball w this
           (moved G deltaTime (bounced G (Some (lit (-1), lit 1)) b)))
    else if at_top_bottom w b
    then Return () (put_ball w this
           (moved G deltaTime (bounced G (Some (lit 1, lit (-1))) b)))
    else if at_side w b
    then Return () (put_ball (reset_world w this b) this
           (moved G deltaTime (bounced G None (reset_ball w b))))
    else Return () (put_ball w this (moved G deltaTime (bounced G None b))).
Proof.
  intros Hb Hreg. pose proof (detectCollision_spec w this b Hb Hreg) as Hd.
  destruct (negb (isInsideCollidable b) && touches_any G w b).
  { exact (moveUpdate_from_detect _ _ _ _ _ _ Hd Hb). }
  destruct (at_top_bottom w b).
  { exact (moveUpdate_from_detect _ _ _ _ _ _ Hd Hb). }
  destruct (at_side w b).
  - apply (moveUpdate_from_detect _ _ _ _ _ _ Hd).
    unfold reset_world. simpl. now rewrite lookup_insert_eq.
  - exact (moveUpdate_from_detect _ _ _ _ _ _ Hd Hb).
Qed.

Lemma ball_at_put_ball w this b : ball_at (put_ball w this b) this = Some b.
Proof. unfold ball_at, put_ball. simpl. now rewrite lookup_insert_eq. Qed.


Lemma instanceof_put_ball w this b b' obj :
  heap w !! this = Some (OBall b) →
  instanceof_Drawable (put_ball w this b') obj = instanceof_Drawable w obj.
Proof.
  intros Hb. destruct obj as [| | | | |l]; simpl; try reflexivity.
  destruct (decide (this = l)) as [<-|Hne].
  - rewrite lookup_insert_eq, Hb. reflexivity.
  - now rewrite lookup_insert_ne.
Qed.

Lemma forallb_pointwise {A} (f g : A → bool) (l : list A) :
  (∀ x, f x = g x) → forallb f l = forallb g l.
Proof. intros E. induction l as [|x l IH]; simpl; [reflexivity|]. now rewrite E, IH. Qed.

Lemma instanceof_reset_world w this b obj :
  heap w !! this = Some (OBall b) →
  instanceof_Drawable (reset_world w this b) obj = instanceof_Drawable w obj.
Proof. apply (instanceof_put_ball w this b (reset_ball w b) obj). Qed.

(** A frame of the ball leaves it a ball with the same collidables, all of
    them still instances of [Drawable]. *)
Lemma moveUpdate_preserves w this b deltaTime :
  heap w !! this = Some (OBall b) →
  registered_ok w b = true →
  ∃ b', Ball.moveUpdate G this deltaTime w
          = Return () (put_ball (world_of (Ball.detectCollision G this w)) this b') ∧
        collidables b' = collidables b ∧
        registered_ok (world_of (Ball.moveUpdate G this deltaTime w)) b' = true.
Proof.
  intros Hb Hreg.
  assert (Hput : ∀ b1 b2, collidables b2 = collidables b →
            registered_ok (put_ball w this b1) b2 = true).
  { intros b1 b2 E. unfold registered_ok. rewrite E.
    rewrite <- Hreg. unfold registered_ok. apply forallb_pointwise.
    intros obj. apply (instanceof_put_ball _ _ _ _ _ Hb). }
  assert (Hput' : ∀ b1 b2, collidables b2 = collidables b →
            registered_ok (put_ball (reset_world w this b) this b1) b2 = true).
  { intros b1 b2 E. unfold registered_ok. rewrite E.
    rewrite <- Hreg. unfold registered_ok. apply forallb_pointwise.
    intros obj. unfold put_ball, reset_world, set_heap. simpl.
    rewrite insert_insert_eq. apply (instanceof_put_ball _ _ _ _ _ Hb). }
  rewrite (moveUpdate_spec w this b deltaTime Hb Hreg).
  rewrite (detectCollision_spec w this b Hb Hreg).
  destruct (negb (isInsideCollidable b) && touches_any G w b).
  { eexists. split; [reflexivity|]. split; [reflexivity|]. now apply Hput. }
  destruct (at_top_bottom w b).
  { eexists. split; [reflexivity|]. split; [reflexivity|]. now apply Hput. }
  destruct (at_side w b).
  - eexists. split; [reflexivity|]. split; [reflexivity|]. now apply Hput'.
  - eexists. split; [reflexivity|]. split; [reflexivity|]. now apply Hput.
Qed.

(** The flag after a frame is up exactly when the collision test returned
    modifiers. *)
Lemma flag_after_moveUpdate w this b deltaTime :
  heap w !! this = Some (OBall b) →
  registered_ok w b = true →
  flag_at (world_of (Ball.moveUpdate G this deltaTime w)) this =
    Some ((negb (isInsideCollidable b) && touches_any G w b) || at_top_bottom w b).
Proof.
  intros Hb Hreg. rewrite (moveUpdate_spec w this b deltaTime Hb Hreg).
  unfold flag_at.
  destruct (negb (isInsideCollidable b) && touches_any G w b); simpl.
  { now rewrite ball_at_put_ball. }
  destruct (at_top_bottom w b); simpl.
  { now rewrite ball_at_put_ball. }
  destruct (at_side w b); simpl; now rewrite ball_at_put_ball.
Qed.

(** Registration keeps the collidables instances of [Drawable]. *)
Lemma registerCollisionObject_registered_ok w this b obj :
  heap w !! this = Some (OBall b) →
  registered_ok w b = true →
  instanceof_Drawable w obj = true →
  ∃ b', Ball.registerCollisionObject this obj w = Return () (put_ball w this b') ∧
        collidables b' = collidables b ++ [obj] ∧
        registered_ok (put_ball w this b') b' = true.
Proof.
  intros Hb Hreg Hobj.
  exists (mkBall (ball_super b) (collidables b ++ [obj]) (isInsideCollidable b)).
  split; [|split; [reflexivity|]].
  - unfold Ball.registerCollisionObject. unfold mbind at 1, M_bind at 1.
    rewrite Hobj. simpl.
    rewrite (bind_Return _ _ _ _ _ (this_ball_Some _ _ _ Hb)).
    unfold set_collidables.
    rewrite (bind_Return _ _ _ _ _ (this_ball_Some _ _ _ Hb)). reflexivity.
  - unfold registered_ok. simpl. rewrite forallb_app. simpl.
    rewrite (forallb_pointwise _ (instanceof_Drawable w)),
      (instanceof_put_ball _ _ _ _ _ Hb), Hobj.
    + unfold registered_ok in Hreg. now rewrite Hreg.
    + intros v. apply (instanceof_put_ball _ _ _ _ _ Hb).
Qed.

(** ** The collision test and the flag *)


(** C3, as amended. The flag after a frame is up exactly when the collision
    test returned modifiers: a collidable overlapped while the flag was down,
    or the ball was at the top or bottom edge. Every other frame ends with the
    flag down, a side-wall exit and an overlap under a raised flag included.
    A ball whose overlap is detected on one frame and which is at the top or
    bottom edge on the next keeps the flag up over both frames. *)
Theorem flag_lifecycle w this b deltaTime deltaTime' :
  ball_at w this = Some b →
  registered_ok w b = true →
  let w1 := world_of (Ball.moveUpdate G this deltaTime w) in
  flag_at w1 this =
    Some ((negb (isInsideCollidable b) && touches_any G w b) || at_top_bottom w b) ∧
  (isInsideCollidable b = false → touches_any G w b = true →
   ∀ b1, ball_at w1 this = Some b1 → at_top_bottom w1 b1 = true →
     flag_at w1 this = Some true ∧
     flag_at (world_of (Ball.moveUpdate G this deltaTime' w1)) this = Some true).
Proof.
  intros Hb Hreg w1. apply ball_at_Some in Hb.
  pose proof (flag_after_moveUpdate w this b deltaTime Hb Hreg) as Hflag.
  split; [exact Hflag|].
  intros Hdown Htouch b1 Hb1 Hwall.
  split.
  - subst w1. rewrite Hflag, Hdown, Htouch. reflexivity.
  - destruct (moveUpdate_preserves w this b deltaTime Hb Hreg) as (b' & Hrun & _ & Hreg').
    fold w1 in Hreg'. apply ball_at_Some in Hb1.
    assert (b' = b1) as ->.
    { subst w1. rewrite Hrun in Hb1. simpl in Hb1.
      rewrite lookup_insert_eq in Hb1. congruence. }
    rewrite (flag_after_moveUpdate w1 this b1 deltaTime' Hb1 Hreg').
    rewrite Hwall. now rewrite orb_true_r.
Qed.

(** C9. Any modifiers, those of a top or bottom wall included, make [bounce]
    raise the flag. So a ball at the top or bottom edge ends the frame with
    the flag up although no collidable overlapped, and on the following frame
    the collision test skips the collidables: it answers as if there were
    none, even when the ball lies inside the box of one. *)
Theorem wall_bounce_sets_flag w this b modifiers deltaTime :
  ball_at w this = Some b →
  registered_ok w b = true →
  let w1 := world_of (Ball.moveUpdate G this deltaTime w) in
  flag_at (world_of (Ball.bounce G this (Some modifiers) w)) this = Some true ∧
  (touches_any G w b = false → at_top_bottom w b = true →
   Ball.detectCollision G this w = Return (Some (lit 1, lit (-1))) w ∧
   flag_at w1 this = Some true) ∧
  (at_top_bottom w b = true →
   ∀ b1, ball_at w1 this = Some b1 → touches_any G w1 b1 = true →
     Ball.detectCollision G this w1 =
       if at_top_bottom w1 b1 then Return (Some (lit 1, lit (-1))) w1
       else if at_side w1 b1 then Return None (reset_world w1 this b1)
       else Return None w1).
Proof.
  intros Hb Hreg w1. apply ball_at_Some in Hb.
  pose proof (flag_after_moveUpdate w this b deltaTime Hb Hreg) as Hflag.
  split; [|split].
  - rewrite (bounce_spec w this b (Some modifiers) Hb). unfold flag_at. simpl.
    rewrite ball_at_put_ball. now destruct modifiers.
  - intros Htouch Hwall. split.
    + rewrite (detectCollision_spec w this b Hb Hreg), Htouch, Hwall.
      now rewrite andb_false_r.
    + subst w1. rewrite Hflag, Hwall. now rewrite orb_true_r.
  - intros Hwall b1 Hb1 Htouch.
    destruct (moveUpdate_preserves w this b deltaTime Hb Hreg) as (b' & Hrun & _ & Hreg').
    fold w1 in Hreg'. apply ball_at_Some in Hb1.
    assert (b' = b1) as ->.
    { subst w1. rewrite Hrun in Hb1. simpl in Hb1.
      rewrite lookup_insert_eq in Hb1. congruence. }
    assert (isInsideCollidable b1 = true) as Hup.
    { subst w1. rewrite Hwall, orb_true_r in Hflag. unfold flag_at in Hflag.
      rewrite (proj2 (ball_at_Some _ _ _) Hb1) in Hflag. simpl in Hflag. congruence. }
    rewrite (detectCollision_spec w1 this b1 Hb1 Hreg'), Hup. reflexivity.
Qed.

(** C1, as amended. For a ball inside the expanded box of a collidable with
    the flag down, one frame multiplies the X velocity by -1 and by
    ACCELERATION (the Y velocity by 1 and by ACCELERATION) and raises the
    flag. On the following frame, with the ball still inside the box and away
    from the edges of the field, the raised flag makes the test skip the
    collidable: the velocity stays as it is, with no second flip and no
    scaling, and the flag is lowered. *)
Theorem debounce_two_frames w this b deltaTime deltaTime' :
  ball_at w this = Some b →
  registered_ok w b = true →
  isInsideCollidable b = false →
  touches_any G w b = true →
  let w1 := world_of (Ball.moveUpdate G this deltaTime w) in
  ∃ b1, ball_at w1 this = Some b1 ∧
    moveVector (ball_super b1) =
      ((moveVector (ball_super b)).1 * lit (-1) * ACCELERATION G,
       (moveVector (ball_super b)).2 * lit 1 * ACCELERATION G) ∧
    isInsideCollidable b1 = true ∧
    (touches_any G w1 b1 = true → at_top_bottom w1 b1 = false → at_side w1 b1 = false →
     ∃ b2, ball_at (world_of (Ball.moveUpdate G this deltaTime' w1)) this = Some b2 ∧
       moveVector (ball_super b2) = moveVector (ball_super b1) ∧
       isInsideCollidable b2 = false).
Proof.
  intros Hb Hreg Hdown Htouch w1. apply ball_at_Some in Hb.
  destruct (moveUpdate_preserves w this b deltaTime Hb Hreg) as (b' & Hrun & _ & Hreg').
  fold w1 in Hreg'.
  pose proof (moveUpdate_spec w this b deltaTime Hb Hreg) as Hspec.
  rewrite Hdown, Htouch in Hspec. simpl in Hspec.
  assert (b' = moved G deltaTime (bounced G (Some (lit (-1), lit 1)) b)) as ->.
  { rewrite Hspec in Hrun.
    apply (f_equal (λ r, ball_at (world_of r) this)) in Hrun. simpl in Hrun.
    rewrite !ball_at_put_ball in Hrun. injection Hrun as <-. reflexivity. }
  set (b1 := moved G deltaTime (bounced G (Some (lit (-1), lit 1)) b)) in *.
  assert (Hb1 : heap w1 !! this = Some (OBall b1)).
  { apply ball_at_Some. subst w1. rewrite Hspec. simpl. apply ball_at_put_ball. }
  exists b1. split; [now apply ball_at_Some|].
  split; [reflexivity|]. split; [reflexivity|].
  intros Htouch1 Hwall1 Hside1.
  rewrite (moveUpdate_spec w1 this b1 deltaTime' Hb1 Hreg').
  rewrite Hwall1, Hside1. simpl.
  eexists. split; [apply ball_at_put_ball|]. split; reflexivity.
Qed.

(** ** The reset at a side wall *)

Lemma randomMoveVector_spec w :
  Drawable.randomMoveVector w =
    Return (if random w (calls w) >? lit 0.5 then lit 1 else lit (-1),
            ((random w (S (calls w)) * lit 2) - lit 1) * lit 0.5)
           (mkWorld (canvas w) (heap w) (drawables w) (random w) (S (S (calls w)))).
Proof. reflexivity. Qed.

Lemma randomColor_spec w :
  Drawable.randomColor w =
    Return (random w (calls w), random w (S (calls w)), random w (S (S (calls w))), lit 1)
           (mkWorld (canvas w) (heap w) (drawables w) (random w) (S (S (S (calls w))))).
Proof. reflexivity. Qed.


(** ** Paddles *)

Lemma Plank_moveUpdate_spec w this p deltaTime :
  heap w !! this = Some (OPlank p) →
  let y := (translation (plank_super p)).2 in
  let step := PIXELS_PER_SEC G * deltaTime in
  Plank.moveUpdate G this deltaTime w =
    Return ()
      (if Plank.held p (up (keys p)) then
         if Plank.held p (down (keys p))
         then put_plank w this (at_height p ((y + step) - step))
         else put_plank w this (at_height p (y + step))
       else
         if Plank.held p (down (keys p))
         then put_plank w this (at_height p (y - step))
         else w).
Proof.
  intros Hp y step. unfold Plank.moveUpdate.
  rewrite (bind_Return _ _ _ _ _ (this_plank_Some _ _ _ Hp)).
  unfold set_translation, this_drawable, update_super.
  unfold mbind, M_bind, store, deref, mret, M_ret, put_plank, set_heap.
  destruct (Plank.held p (up (keys p))), (Plank.held p (down (keys p)));
    rewrite ?Hp; run_store; rewrite ?Hp; run_store; reflexivity.
Qed.

(** C6. Paddle movement: for every deltaTime, the update adds
    PIXELS_PER_SEC * deltaTime to the paddle's Y translation when its up key
    is held, subtracts the same amount when its down key is held (both when
    both are held), and leaves the world as it is when neither is held. The X
    translation, the keys and the key states stay; no bound is applied to the
    result. *)
Theorem plank_moveUpdate_displacement w this p deltaTime :
  plank_at w this = Some p →
  let y := (translation (plank_super p)).2 in
  let step := PIXELS_PER_SEC G * deltaTime in
  let w' := world_of (Plank.moveUpdate G this deltaTime w) in
  returns (Plank.moveUpdate G this deltaTime w) = true ∧
  (Plank.held p (up (keys p)) = true → Plank.held p (down (keys p)) = false →
   plank_at w' this = Some (at_height p (y + step))) ∧
  (Plank.held p (up (keys p)) = false → Plank.held p (down (keys p)) = true →
   plank_at w' this = Some (at_height p (y - step))) ∧
  (Plank.held p (up (keys p)) = true → Plank.held p (down (keys p)) = true →
   plank_at w' this = Some (at_height p ((y + step) - step))) ∧
  (Plank.held p (up (keys p)) = false → Plank.held p (down (keys p)) = false → w' = w).
Proof.
  intros Hp y step w'. apply plank_at_Some in Hp.
  subst w'. rewrite (Plank_moveUpdate_spec w this p deltaTime Hp). simpl.
  fold y step.
  assert (Hput : ∀ p', plank_at (put_plank w this p') this = Some p').
  { intros p'. unfold plank_at, put_plank. simpl. now rewrite lookup_insert_eq. }
  split; [reflexivity|].
  repeat split; intros -> ->; auto.
Qed.

(** ** Registration of collidables *)

(** C8. [registerCollisionObject] throws exactly when its argument is not an
    instance of [Drawable]; the throw leaves the world, and so the ball's list
    of collidables, as it was; otherwise the argument is appended at the end
    of the list and nothing else changes. *)
Theorem registerCollisionObject_spec w this b obj :
  ball_at w this = Some b →
  (returns (Ball.registerCollisionObject this obj w) = false ↔
   instanceof_Drawable w obj = false) ∧
  (instanceof_Drawable w obj = false →
   Ball.registerCollisionObject this obj w =
     Throw (Error "Object must be of type Drawable") w) ∧
  (instanceof_Drawable w obj = true →
   Ball.registerCollisionObject this obj w =
     Return () (put_ball w this
       (mkBall (ball_super b) (collidables b ++ [obj]) (isInsideCollidable b)))).
Proof.
  intros Hb. apply ball_at_Some in Hb.
  assert (Hno : instanceof_Drawable w obj = false →
            Ball.registerCollisionObject this obj w =
              Throw (Error "Object must be of type Drawable") w).
  { intros E. unfold Ball.registerCollisionObject, mbind, M_bind. now rewrite E. }
  assert (Hyes : instanceof_Drawable w obj = true →
            Ball.registerCollisionObject this obj w =
              Return () (put_ball w this
                (mkBall (ball_super b) (collidables b ++ [obj]) (isInsideCollidable b)))).
  { intros E. unfold Ball.registerCollisionObject. unfold mbind at 1, M_bind at 1.
    rewrite E. simpl.
    rewrite (bind_Return _ _ _ _ _ (this_ball_Some _ _ _ Hb)).
    unfold set_collidables.
    rewrite (bind_Return _ _ _ _ _ (this_ball_Some _ _ _ Hb)). reflexivity. }
  split; [|split; assumption].
  destruct (instanceof_Drawable w obj) eqn:E.
  - rewrite (Hyes eq_refl). simpl. split; discriminate.
  - rewrite (Hno eq_refl). simpl. split; reflexivity.
Qed.

End Generic.

(** ** The scene: frames, key events and new balls *)

Section Scene.
Context {num : Type} `{Number num}.
Variable G : Globals num.
Local Open Scope js_scope.

Implicit Types (w : World num) (this l : loc) (b : Ball num) (p : Plank num)
  (d : Drawable num) (o : object num) (obj : value num) (k : kind num).

Lemma kinds_lookup w l : kinds w !! l = kind_of <$> heap w !! l.
Proof. apply lookup_fmap. Qed.

Lemma instanceof_Drawable_kinds w obj :
  instanceof_Drawable w obj = true ↔
  ∃ l k, obj = VObject l ∧ kinds w !! l = Some k ∧ k ≠ KOther.
Proof.
  unfold instanceof_Drawable. split.
  - destruct obj as [| | | | |l]; try discriminate.
    destruct (heap w !! l) as [o|] eqn:E; [|discriminate].
    intros Hs. exists l, (kind_of o). split; [reflexivity|].
    rewrite kinds_lookup, E. split; [reflexivity|].
    destruct o; simpl in *; discriminate.
  - intros (l & k & -> & Hk & Hne). rewrite kinds_lookup in Hk.
    destruct (heap w !! l) as [o|]; [|discriminate]. simpl in Hk.
    injection Hk as <-. apply bool_decide_eq_true.
    destruct o; simpl; eauto. now destruct Hne.
Qed.

Lemma instanceof_Drawable_mono w w' obj :
  kinds w ⊆ kinds w' →
  instanceof_Drawable w obj = true → instanceof_Drawable w' obj = true.
Proof.
  intros Hsub. rewrite !instanceof_Drawable_kinds.
  intros (l & k & -> & Hk & Hne). exists l, k. split; [reflexivity|].
  split; [|assumption]. eapply lookup_weaken; eassumption.
Qed.

Lemma drawable_ok_kinds w l :
  drawable_ok w l = true ↔
  ∃ k, kinds w !! l = Some k ∧ k ≠ KOther ∧
       ∀ objs, k = KBall objs → forallb (instanceof_Drawable w) objs = true.
Proof.
  unfold drawable_ok. rewrite kinds_lookup. split.
  - destruct (heap w !! l) as [o|]; [|discriminate]. intros Ho.
    exists (kind_of o). split; [reflexivity|].
    destruct o; simpl in *; try discriminate; split; try discriminate.
    intros objs [= <-]. exact Ho.
  - intros (k & Hk & Hne & Hb). destruct (heap w !! l) as [o|]; [|discriminate].
    injection Hk as <-. destruct o; simpl in *; try reflexivity.
    + now apply Hb.
    + now destruct Hne.
Qed.

Lemma drawable_ok_mono w w' l :
  kinds w ⊆ kinds w' → drawable_ok w l = true → drawable_ok w' l = true.
Proof.
  intros Hsub. rewrite !drawable_ok_kinds.
  intros (k & Hk & Hne & Hb). exists k.
  split; [eapply lookup_weaken; eassumption|]. split; [assumption|].
  intros objs Hobjs. specialize (Hb objs Hobjs).
  rewrite forallb_forall in *. intros obj Hin.
  eapply instanceof_Drawable_mono; eauto.
Qed.

Lemma forallb_drawable_ok_mono w w' (objs : list loc) :
  kinds w ⊆ kinds w' →
  forallb (drawable_ok w) objs = true → forallb (drawable_ok w') objs = true.
Proof.
  intros Hsub. rewrite !forallb_forall. intros Hall l Hin.
  eapply drawable_ok_mono; eauto.
Qed.

Lemma kinds_insert (h : gmap loc (object num)) this o o' :
  h !! this = Some o → kind_of o' = kind_of o →
  kind_of <$> <[this := o']> h = kind_of <$> h.
Proof.
  intros Hh Hk. rewrite fmap_insert. apply insert_id.
  now rewrite lookup_fmap, Hh, Hk.
Qed.

Lemma same_scene_refl w : same_scene w w.
Proof. now repeat split. Qed.

Lemma same_scene_trans w1 w2 w3 :
  same_scene w1 w2 → same_scene w2 w3 → same_scene w1 w3.
Proof. unfold same_scene. intuition congruence. Qed.

Lemma same_scene_put_ball w this b b' :
  heap w !! this = Some (OBall b) → collidables b' = collidables b →
  same_scene w (put_ball w this b').
Proof.
  intros Hb Hc. repeat split. unfold kinds, put_ball. simpl.
  apply (kinds_insert _ _ (OBall b)); [assumption|]. simpl. now rewrite Hc.
Qed.

Lemma same_scene_put_plank w this p p' :
  heap w !! this = Some (OPlank p) → keys p' = keys p →
  same_scene w (put_plank w this p').
Proof.
  intros Hp Hk. repeat split. unfold kinds, put_plank. simpl.
  apply (kinds_insert _ _ (OPlank p)); [assumption|]. simpl. now rewrite Hk.
Qed.

Lemma same_scene_reset_world w this b :
  heap w !! this = Some (OBall b) → same_scene w (reset_world w this b).
Proof.
  intros Hb. repeat split. unfold kinds, reset_world. simpl.
  now apply (kinds_insert _ _ (OBall b)).
Qed.

(** A frame of a plank writes the plank only. *)
Lemma Plank_moveUpdate_frame w this p deltaTime :
  heap w !! this = Some (OPlank p) →
  ∃ w', Plank.moveUpdate G this deltaTime w = Return () w' ∧
        same_scene w w' ∧ calls w' = calls w ∧
        ∀ l, l ≠ this → heap w' !! l = heap w !! l.
Proof.
  intros Hp. rewrite (Plank_moveUpdate_spec G w this p deltaTime Hp). cbv zeta.
  eexists. split; [reflexivity|].
  destruct (Plank.held p (up (keys p))), (Plank.held p (down (keys p)));
    (split; [first [apply same_scene_refl
                   | now apply (same_scene_put_plank w this p)]|]);
    (split; [reflexivity|]); intros l Hl; simpl;
    rewrite ?lookup_insert_ne by congruence; reflexivity.
Qed.

Lemma Plank_moveUpdate_at w this p deltaTime :
  heap w !! this = Some (OPlank p) →
  heap (world_of (Plank.moveUpdate G this deltaTime w)) !! this
  = Some (OPlank (plank_moved G deltaTime p)).
Proof.
  intros Hp. rewrite (Plank_moveUpdate_spec G w this p deltaTime Hp). cbv zeta.
  unfold plank_moved.
  destruct (Plank.held p (up (keys p))), (Plank.held p (down (keys p))); simpl;
    rewrite ?lookup_insert_eq; auto.
Qed.

(** A frame of a ball writes the ball only, and calls [Math.random] five
    times on a reset and not at all otherwise. *)
Lemma Ball_moveUpdate_frame w this b deltaTime :
  heap w !! this = Some (OBall b) →
  registered_ok w b = true →
  ∃ w', Ball.moveUpdate G this deltaTime w = Return () w' ∧
        same_scene w w' ∧
        calls w' =
          (if negb (isInsideCollidable b) && touches_any G w b then calls w
           else if at_top_bottom w b then calls w
           else if at_side w b then 5 + calls w else calls w)%nat ∧
        ∀ l, l ≠ this → heap w' !! l = heap w !! l.
Proof.
  intros Hb Hok. rewrite (moveUpdate_spec G w this b deltaTime Hb Hok).
  destruct (negb (isInsideCollidable b) && touches_any G w b);
    [|destruct (at_top_bottom w b); [|destruct (at_side w b)]];
    eexists; (split; [reflexivity|]).
  1, 2, 4: split; [now apply (same_scene_put_ball w this b)|];
    (split; [reflexivity|]); intros l Hl; simpl;
    rewrite lookup_insert_ne by congruence; reflexivity.
  split.
  - eapply same_scene_trans; [exact (same_scene_reset_world w this b Hb)|].
    apply (same_scene_put_ball _ this (reset_ball w b)); [|reflexivity].
    simpl. apply lookup_insert_eq.
  - split; [reflexivity|]. intros l Hl. simpl.
    rewrite !lookup_insert_ne by congruence. reflexivity.
Qed.

(** The call [obj.moveUpdate(deltaTime)] on an instance of [Drawable]. *)
Lemma call_moveUpdate_frame w l deltaTime :
  drawable_ok w l = true →
  ∃ w', call_moveUpdate G l deltaTime w = Return () w' ∧
        same_scene w w' ∧ (calls w ≤ calls w')%nat ∧
        ∀ l', l' ≠ l → heap w' !! l' = heap w !! l'.
Proof.
  unfold drawable_ok. destruct (heap w !! l) as [o|] eqn:Ho; [|discriminate].
  intros Hok. unfold call_moveUpdate.
  rewrite (bind_Return _ _ _ _ _ (deref_Some _ _ _ Ho)).
  destruct o as [d|d|p|b|]; cbv beta iota; simpl in Hok; try discriminate.
  - exists w. split; [reflexivity|]. split; [apply same_scene_refl|]. now split.
  - exists w. split; [reflexivity|]. split; [apply same_scene_refl|]. now split.
  - destruct (Plank_moveUpdate_frame w l p deltaTime Ho) as (w' & -> & Hs & Hc & Hl).
    exists w'. split; [reflexivity|]. split; [assumption|]. split; [lia|assumption].
  - destruct (Ball_moveUpdate_frame w l b deltaTime Ho Hok) as (w' & -> & Hs & Hc & Hl).
    exists w'. split; [reflexivity|]. split; [assumption|]. split; [|assumption].
    rewrite Hc. destruct (negb _ && _); [lia|].
    destruct (at_top_bottom w b); [lia|]. destruct (at_side w b); lia.
Qed.

(** The update loop over instances of [Drawable]: it runs to its end, keeps
    the scene and leaves alone the objects that are not in the list. *)
Lemma moveUpdate_all_frame (objs : list loc) w deltaTime :
  forallb (drawable_ok w) objs = true →
  ∃ w', moveUpdate_all G objs deltaTime w = Return () w' ∧
        same_scene w w' ∧ (calls w ≤ calls w')%nat ∧
        ∀ l, l ∉ objs → heap w' !! l = heap w !! l.
Proof.
  revert w. induction objs as [|obj rest IH]; intros w Hall.
  - exists w. split; [reflexivity|]. split; [apply same_scene_refl|]. now split.
  - simpl in Hall. apply andb_true_iff in Hall as [Hobj Hrest].
    destruct (call_moveUpdate_frame w obj deltaTime Hobj) as (w1 & E1 & Hs1 & Hc1 & Hl1).
    destruct (IH w1) as (w2 & E2 & Hs2 & Hc2 & Hl2).
    { eapply forallb_drawable_ok_mono; [|exact Hrest].
      destruct Hs1 as (_ & _ & _ & ->). reflexivity. }
    exists w2. split.
    { simpl. unfold mbind at 1, M_bind. rewrite E1. exact E2. }
    split; [eapply same_scene_trans; eassumption|]. split; [lia|].
    intros l Hl. rewrite Hl2, Hl1; [reflexivity| |]; set_solver.
Qed.

Lemma scene_ok_same_scene w w' :
  same_scene w w' → scene_ok w = true → scene_ok w' = true.
Proof.
  intros (_ & Hd & _ & Hk). unfold scene_ok. rewrite Hd.
  rewrite !andb_true_iff. intros [Hall Hlen]. split; [|assumption].
  eapply forallb_drawable_ok_mono; [|exact Hall]. now rewrite Hk.
Qed.

Lemma drawScene_update_frame w deltaTime :
  scene_ok w = true →
  ∃ w', drawScene_update G deltaTime w = Return () w' ∧
        same_scene w w' ∧ scene_ok w' = true ∧ (calls w ≤ calls w')%nat ∧
        ∀ l, l ∉ drawables w → heap w' !! l = heap w !! l.
Proof.
  intros Hok. pose proof Hok as Hok'. unfold scene_ok in Hok'.
  apply andb_true_iff in Hok' as [Hall _].
  destruct (moveUpdate_all_frame _ w deltaTime Hall) as (w' & E & Hs & Hc & Hl).
  exists w'. split; [exact E|]. split; [assumption|].
  split; [eapply scene_ok_same_scene; eassumption|]. now split.
Qed.

(** *** Key events *)

Lemma listener_kind pressed key o : kind_of (Plank.listener pressed key o) = kind_of o.
Proof.
  destruct o; simpl; try reflexivity. now destruct (bool_decide _).
Qed.

Lemma key_event_same_scene pressed key w :
  same_scene w (set_heap (Plank.listener pressed key <$> heap w) w).
Proof.
  repeat split. unfold kinds. simpl. rewrite <- map_fmap_compose.
  apply map_fmap_ext. intros l o _. apply listener_kind.
Qed.

(** *** New balls *)

Lemma fresh_not_in_heap w : heap w !! fresh (dom (heap w)) = None.
Proof. apply not_elem_of_dom. apply is_fresh. Qed.

Lemma addNewBall_spec w col l0 l1 :
  drawables w !! 0%nat = Some l0 →
  drawables w !! 1%nat = Some l1 →
  instanceof_Drawable w (VObject l0) = true →
  instanceof_Drawable w (VObject l1) = true →
  addNewBall col w = Return () (with_new_ball w col l0 l1).
Proof.
  intros H0 H1 I0 I1. pose proof (fresh_not_in_heap w) as Hf.
  set (l := fresh (dom (heap w))) in *.
  assert (Hl0 : l ≠ l0).
  { intros <-. simpl in I0. now rewrite Hf in I0. }
  assert (Hl1 : l ≠ l1).
  { intros <-. simpl in I1. now rewrite Hf in I1. }
  simpl in I0, I1.
  unfold addNewBall, with_new_ball, new_ball. fold l.
  destruct col as [c|]; simpl.
  all: unfold mbind, M_bind, mret, M_ret, get_canvas, Ball.new, Drawable.constructor,
    Drawable.randomColor, Drawable.randomMoveVector, Math_random, alloc, drawables_at,
    Ball.registerCollisionObject, set_collidables, this_ball, deref, store,
    drawables_push, set_heap, instanceof_Drawable, mbind, M_bind, mret, M_ret; simpl; fold l.
  all: rewrite H0; simpl; rewrite (lookup_insert_ne _ l l0) by assumption.
  all: destruct (heap w !! l0) as [o0|]; [|discriminate]; rewrite I0; simpl.
  all: rewrite lookup_insert_eq; simpl; rewrite lookup_insert_eq; simpl.
  all: rewrite H1; simpl; rewrite insert_insert_eq, (lookup_insert_ne _ l l1) by assumption.
  all: destruct (heap w !! l1) as [o1|]; [|discriminate]; rewrite I1; simpl.
  all: rewrite lookup_insert_eq; simpl; rewrite lookup_insert_eq; simpl.
  all: rewrite insert_insert_eq; reflexivity.
Qed.

Lemma drawable_ok_instanceof w l :
  drawable_ok w l = true → instanceof_Drawable w (VObject l) = true.
Proof.
  unfold drawable_ok. simpl. destruct (heap w !! l) as [o|]; [|discriminate].
  destruct o; simpl; try discriminate; reflexivity.
Qed.

Lemma scene_ok_first_two w :
  scene_ok w = true →
  ∃ l0 l1, drawables w !! 0%nat = Some l0 ∧ drawables w !! 1%nat = Some l1 ∧
           instanceof_Drawable w (VObject l0) = true ∧
           instanceof_Drawable w (VObject l1) = true.
Proof.
  unfold scene_ok. rewrite andb_true_iff, bool_decide_eq_true.
  destruct (drawables w) as [|l0 [|l1 rest]]; simpl; intros [Hall Hlen]; try lia.
  apply andb_true_iff in Hall as [H0 Hall]. apply andb_true_iff in Hall as [H1 _].
  exists l0, l1. split; [reflexivity|]. split; [reflexivity|].
  split; now apply drawable_ok_instanceof.
Qed.

Lemma kinds_with_new_ball w col l0 l1 : kinds w ⊆ kinds (with_new_ball w col l0 l1).
Proof.
  unfold kinds, with_new_ball. simpl. rewrite fmap_insert.
  apply insert_subseteq. rewrite lookup_fmap, fresh_not_in_heap. reflexivity.
Qed.

Lemma scene_ok_with_new_ball w col l0 l1 :
  scene_ok w = true →
  instanceof_Drawable w (VObject l0) = true →
  instanceof_Drawable w (VObject l1) = true →
  scene_ok (with_new_ball w col l0 l1) = true.
Proof.
  intros Hok I0 I1. pose proof (kinds_with_new_ball w col l0 l1) as Hsub.
  unfold scene_ok in *. apply andb_true_iff in Hok as [Hall Hlen].
  apply bool_decide_eq_true in Hlen.
  apply andb_true_iff. split.
  - change (drawables (with_new_ball w col l0 l1))
      with (drawables w ++ [fresh (dom (heap w))]).
    rewrite forallb_app. apply andb_true_iff. split.
    + eapply forallb_drawable_ok_mono; eassumption.
    + simpl. rewrite andb_true_r. unfold drawable_ok.
      change (heap (with_new_ball w col l0 l1))
        with (<[fresh (dom (heap w)) := OBall (new_ball w col l0 l1)]> (heap w)).
      rewrite lookup_insert_eq. cbn [object_ok]. unfold registered_ok, new_ball.
      cbn [collidables forallb].
      rewrite !(instanceof_Drawable_mono w _ _ Hsub) by assumption. reflexivity.
  - apply bool_decide_eq_true. simpl. rewrite length_app. lia.
Qed.

(** X5. [addNewBall] with fewer than two drawables: [drawables[1]] is
    [undefined], so the second registration at the latest throws the error
    of [registerCollisionObject]. Nothing is pushed on [drawables], and the
    objects that were there are not written. *)
Theorem addNewBall_needs_two_drawables w col :
  (∀ l, l ∈ drawables w → is_Some (heap w !! l)) →
  (length (drawables w) < 2)%nat →
  ∃ w', addNewBall col w = Throw (Error "Object must be of type Drawable") w' ∧
        drawables w' = drawables w ∧ heap w ⊆ heap w'.
Proof.
  intros Hlive Hlen. pose proof (fresh_not_in_heap w) as Hf.
  set (l := fresh (dom (heap w))) in *.
  unfold addNewBall.
  destruct col as [c|]; simpl.
  all: unfold mbind, M_bind, mret, M_ret, get_canvas, Ball.new, Drawable.constructor,
    Drawable.randomColor, Drawable.randomMoveVector, Math_random, alloc, drawables_at,
    Ball.registerCollisionObject, set_collidables, this_ball, deref, store,
    drawables_push, set_heap, instanceof_Drawable, throw, mbind, M_bind, mret, M_ret;
    simpl; fold l.
  all: destruct (drawables w) as [|l0 [|l1 rest]] eqn:Hd; simpl in Hlen |- *; try lia.
  1, 3: eexists; split; [reflexivity|]; simpl; split; [reflexivity|];
    now apply insert_subseteq.
  all: assert (Hne : l ≠ l0)
    by (intros <-; destruct (Hlive l) as [o Ho]; [set_solver|congruence]).
  all: rewrite lookup_insert_ne by assumption.
  all: destruct (heap w !! l0) as [o0|]; simpl;
    [destruct (bool_decide (is_Some (super o0))); simpl|].
  all: try (eexists; split; [reflexivity|]; simpl; split; [reflexivity|];
    now apply insert_subseteq).
  all: rewrite lookup_insert_eq; simpl; rewrite lookup_insert_eq; simpl.
  all: eexists; split; [reflexivity|]; simpl; split; [reflexivity|];
    rewrite insert_insert_eq; now apply insert_subseteq.
Qed.

(** *** What the handlers keep *)

Lemma stable_refl o : stable o o.
Proof. destruct o; simpl; auto. Qed.

Lemma stable_trans o1 o2 o3 : stable o1 o2 → stable o2 o3 → stable o1 o3.
Proof.
  destruct o1, o2; simpl; try tauto; destruct o3; simpl; try tauto;
    intuition congruence.
Qed.

Lemma keeps_refl w : keeps w w.
Proof. intros l o Ho. exists o. split; [assumption|apply stable_refl]. Qed.

Lemma keeps_trans w1 w2 w3 : keeps w1 w2 → keeps w2 w3 → keeps w1 w3.
Proof.
  intros H12 H23 l o Ho. destruct (H12 l o Ho) as (o2 & Ho2 & Hs2).
  destruct (H23 l o2 Ho2) as (o3 & Ho3 & Hs3).
  exists o3. split; [assumption|]. eapply stable_trans; eassumption.
Qed.

Lemma keeps_one w w' this :
  (∀ l, l ≠ this → heap w' !! l = heap w !! l) →
  (∀ o, heap w !! this = Some o → ∃ o', heap w' !! this = Some o' ∧ stable o o') →
  keeps w w'.
Proof.
  intros Hothers Hthis l o Ho. destruct (decide (l = this)) as [->|Hne].
  - now apply Hthis.
  - exists o. rewrite (Hothers l Hne). split; [assumption|apply stable_refl].
Qed.

Lemma stable_plank_moved p deltaTime : stable (OPlank p) (OPlank (plank_moved G deltaTime p)).
Proof.
  unfold plank_moved. cbv zeta.
  destruct (Plank.held p (up (keys p))), (Plank.held p (down (keys p))); simpl; auto.
Qed.

Lemma call_moveUpdate_keeps w l deltaTime :
  drawable_ok w l = true → keeps w (world_of (call_moveUpdate G l deltaTime w)).
Proof.
  intros Hok. pose proof Hok as Hok'. unfold drawable_ok in Hok'.
  destruct (heap w !! l) as [o|] eqn:Ho; [|discriminate].
  unfold call_moveUpdate. rewrite (bind_Return _ _ _ _ _ (deref_Some _ _ _ Ho)).
  destruct o as [d|d|p|b|]; cbv beta iota; simpl in Hok'; try discriminate;
    try apply keeps_refl.
  - destruct (Plank_moveUpdate_frame w l p deltaTime Ho) as (w' & E & _ & _ & Hl).
    pose proof (Plank_moveUpdate_at w l p deltaTime Ho) as Hat.
    rewrite E in *. cbn [world_of] in *. apply (keeps_one w w' l Hl).
    intros o. rewrite Ho. intros [= <-]. eexists. split; [exact Hat|].
    apply stable_plank_moved.
  - destruct (Ball_moveUpdate_frame w l b deltaTime Ho Hok') as (w' & E & Hs & _ & Hl).
    rewrite E. cbn [world_of]. apply (keeps_one w w' l Hl).
    intros o. rewrite Ho. intros [= <-]. destruct Hs as (_ & _ & _ & Hk).
    apply (f_equal (λ m, m !! l)) in Hk. rewrite !kinds_lookup, Ho in Hk.
    destruct (heap w' !! l) as [[]|]; simpl in Hk; try discriminate.
    eexists. split; [reflexivity|]. simpl. congruence.
Qed.

Lemma moveUpdate_all_keeps (objs : list loc) w deltaTime :
  forallb (drawable_ok w) objs = true →
  keeps w (world_of (moveUpdate_all G objs deltaTime w)).
Proof.
  revert w. induction objs as [|obj rest IH]; intros w Hall; [apply keeps_refl|].
  simpl in Hall. apply andb_true_iff in Hall as [Hobj Hrest].
  pose proof (call_moveUpdate_keeps w obj deltaTime Hobj) as Hk1.
  destruct (call_moveUpdate_frame w obj deltaTime Hobj) as (w1 & E1 & Hs1 & _).
  rewrite E1 in Hk1. cbn [world_of] in Hk1.
  change (moveUpdate_all G (obj :: rest) deltaTime w)
    with ((call_moveUpdate G obj deltaTime;; moveUpdate_all G rest deltaTime) w).
  unfold mbind, M_bind. rewrite E1.
  eapply keeps_trans; [exact Hk1|]. apply IH.
  eapply forallb_drawable_ok_mono; [|exact Hrest].
  destruct Hs1 as (_ & _ & _ & ->). reflexivity.
Qed.

Lemma key_event_keeps pressed key w :
  keeps w (set_heap (Plank.listener pressed key <$> heap w) w).
Proof.
  intros l o Ho. exists (Plank.listener pressed key o). simpl.
  rewrite lookup_fmap, Ho. split; [reflexivity|].
  destruct o; simpl; auto. destruct (bool_decide _); simpl; auto.
Qed.

Lemma with_new_ball_keeps w col l0 l1 : keeps w (with_new_ball w col l0 l1).
Proof.
  intros l o Ho. exists o. split; [|apply stable_refl].
  unfold with_new_ball. simpl. rewrite lookup_insert_ne; [assumption|].
  intros <-. rewrite fresh_not_in_heap in Ho. discriminate.
Qed.

(** *** Events *)

Lemma dispatch_scene e then_ w :
  scene_ok w = true →
  ∃ t w', dispatch G e then_ w = Return t w' ∧ scene_ok w' = true ∧
          random w' = random w ∧ keeps w w' ∧
          ∃ more, drawables w' = drawables w ++ more ∧ length more = backticks [e].
Proof.
  intros Hok. destruct e as [now|key|key|key|size]; simpl.
  - destruct (drawScene_update_frame w (now * lit 0.001 - then_) Hok)
      as (w' & E & Hs & Hok' & _).
    pose proof Hok as Hall. unfold scene_ok in Hall.
    apply andb_true_iff in Hall as [Hall _].
    pose proof (moveUpdate_all_keeps _ w (now * lit 0.001 - then_) Hall) as Hk.
    exists (now * lit 0.001), w'. unfold drawScene. cbv zeta.
    unfold drawScene_update in E. unfold mbind, M_bind. unfold drawScene_update.
    rewrite E in *. split; [reflexivity|].
    destruct Hs as (_ & Hd & Hr & _). split; [assumption|]. split; [assumption|].
    split; [exact Hk|]. exists []. now rewrite app_nil_r.
  - eexists _, _. split; [reflexivity|]. split.
    { eapply scene_ok_same_scene; [|exact Hok]. apply key_event_same_scene. }
    split; [reflexivity|]. split; [apply key_event_keeps|].
    exists []. now rewrite app_nil_r.
  - eexists _, _. split; [reflexivity|]. split.
    { eapply scene_ok_same_scene; [|exact Hok]. apply key_event_same_scene. }
    split; [reflexivity|]. split; [apply key_event_keeps|].
    exists []. now rewrite app_nil_r.
  - unfold keypress. destruct (bool_decide (key = "`")).
    + destruct (scene_ok_first_two w Hok) as (l0 & l1 & H0 & H1 & I0 & I1).
      exists then_, (with_new_ball w None l0 l1).
      unfold mbind, M_bind. rewrite (addNewBall_spec w None l0 l1 H0 H1 I0 I1).
      split; [reflexivity|]. split; [now apply scene_ok_with_new_ball|].
      split; [reflexivity|]. split; [apply with_new_ball_keeps|].
      eexists. split; reflexivity.
    + exists then_, w. split; [reflexivity|]. split; [assumption|].
      split; [reflexivity|]. split; [apply keeps_refl|].
      exists []. now rewrite app_nil_r.
  - eexists _, _. split; [reflexivity|]. split; [exact Hok|].
    split; [reflexivity|]. split; [exact (keeps_refl w)|].
    exists []. now rewrite app_nil_r.
Qed.

Lemma backticks_cons e (rest : list (event num)) :
  backticks (e :: rest) = (backticks [e] + backticks rest)%nat.
Proof. destruct e; simpl; lia. Qed.

Lemma run_scene events then_ w :
  scene_ok w = true →
  ∃ t w', run G events then_ w = Return t w' ∧ scene_ok w' = true ∧
          random w' = random w ∧ keeps w w' ∧
          ∃ more, drawables w' = drawables w ++ more ∧ length more = backticks events.
Proof.
  revert then_ w. induction events as [|e rest IH]; intros then_ w Hok.
  - exists then_, w. split; [reflexivity|]. split; [assumption|].
    split; [reflexivity|]. split; [apply keeps_refl|].
    exists []. now rewrite app_nil_r.
  - destruct (dispatch_scene e then_ w Hok)
      as (t & w1 & E1 & Hok1 & Hr1 & Hk1 & more1 & Hd1 & Hn1).
    destruct (IH t w1 Hok1) as (t' & w2 & E2 & Hok2 & Hr2 & Hk2 & more2 & Hd2 & Hn2).
    exists t', w2. split.
    { simpl. unfold mbind, M_bind. rewrite E1. exact E2. }
    split; [assumption|]. split; [congruence|].
    split; [eapply keeps_trans; eassumption|].
    exists (more1 ++ more2). split.
    + now rewrite Hd2, Hd1, app_assoc.
    + rewrite length_app, (backticks_cons e rest). lia.
Qed.

(** *** A plank through a frame *)

Lemma moveUpdate_all_app (xs ys : list loc) deltaTime w :
  moveUpdate_all G (xs ++ ys) deltaTime w
  = (moveUpdate_all G xs deltaTime;; moveUpdate_all G ys deltaTime) w.
Proof.
  revert w. induction xs as [|x xs IH]; intros w; [reflexivity|].
  simpl. unfold mbind, M_bind in *.
  destruct (call_moveUpdate G x deltaTime w); [apply IH|reflexivity].
Qed.

(** The update loop moves a plank that is in the list once as
    [Plank.moveUpdate] alone does: the other objects leave it alone. *)
Lemma moveUpdate_all_plank (pre post : list loc) w this p deltaTime :
  forallb (drawable_ok w) (pre ++ this :: post) = true →
  this ∉ pre → this ∉ post →
  heap w !! this = Some (OPlank p) →
  ∃ w', moveUpdate_all G (pre ++ this :: post) deltaTime w = Return () w' ∧
        same_scene w w' ∧
        heap w' !! this = Some (OPlank (plank_moved G deltaTime p)).
Proof.
  intros Hall Hpre Hpost Hp. rewrite forallb_app in Hall.
  apply andb_true_iff in Hall as [Hall1 Hall2].
  destruct (moveUpdate_all_frame pre w deltaTime Hall1) as (w1 & E1 & Hs1 & _ & Hl1).
  assert (Hk1 : kinds w ⊆ kinds w1) by (destruct Hs1 as (_ & _ & _ & ->); reflexivity).
  apply (forallb_drawable_ok_mono w w1 _ Hk1) in Hall2.
  simpl in Hall2. apply andb_true_iff in Hall2 as [Hthis Hall2].
  assert (Hp1 : heap w1 !! this = Some (OPlank p)) by (rewrite Hl1; assumption).
  destruct (Plank_moveUpdate_frame w1 this p deltaTime Hp1) as (w2 & E2 & Hs2 & _ & Hl2).
  assert (Hk2 : kinds w1 ⊆ kinds w2) by (destruct Hs2 as (_ & _ & _ & ->); reflexivity).
  apply (forallb_drawable_ok_mono w1 w2 _ Hk2) in Hall2.
  destruct (moveUpdate_all_frame post w2 deltaTime Hall2) as (w3 & E3 & Hs3 & _ & Hl3).
  exists w3. split.
  { assert (Ecall : call_moveUpdate G this deltaTime w1 = Return () w2).
    { unfold call_moveUpdate.
      rewrite (bind_Return _ _ _ _ _ (deref_Some _ _ _ Hp1)). exact E2. }
    rewrite moveUpdate_all_app. unfold mbind at 1, M_bind. rewrite E1.
    change (moveUpdate_all G (this :: post) deltaTime w1)
      with ((call_moveUpdate G this deltaTime;; moveUpdate_all G post deltaTime) w1).
    unfold mbind, M_bind. rewrite Ecall. exact E3. }
  split; [eauto using same_scene_trans|].
  rewrite (Hl3 this Hpost).
  pose proof (Plank_moveUpdate_at w1 this p deltaTime Hp1) as Hat.
  rewrite E2 in Hat. exact Hat.
Qed.


Lemma listener_plank_at pressed key w this p :
  plank_at w this = Some p → key ≠ "__proto__" →
  plank_at (set_heap (Plank.listener pressed key <$> heap w) w) this
  = Some (mkPlank (plank_super p) (keys p) (<[key := pressed]> (keysPressed p))).
Proof.
  intros Hp Hkey. apply plank_at_Some in Hp. unfold plank_at. simpl.
  rewrite lookup_fmap, Hp. simpl. now rewrite bool_decide_eq_false_2.
Qed.

(** ** The scene through frames and events *)

(** X8. A frame of a well-formed scene, whatever the time step: the update loop
    runs to its end without an exception, and leaves the scene well formed,
    with the same canvas, the same [drawables], and every object of the
    class it had, a plank with its keys and a ball with its collidables.
    Objects that are not in [drawables] are not written. *)
Theorem frame_keeps_scene w deltaTime :
  scene_ok w = true →
  let r := drawScene_update G deltaTime w in
  returns r = true ∧ scene_ok (world_of r) = true ∧
  canvas (world_of r) = canvas w ∧ drawables (world_of r) = drawables w ∧
  kinds (world_of r) = kinds w ∧ (calls w ≤ calls (world_of r))%nat ∧
  ∀ l, l ∉ drawables w → heap (world_of r) !! l = heap w !! l.
Proof.
  intros Hok. cbv zeta.
  destruct (drawScene_update_frame w deltaTime Hok) as (w' & -> & Hs & Hok' & Hc & Hl).
  destruct Hs as (? & ? & ? & ?). simpl. auto 10.
Qed.

(** X2. What a frame of a ball writes: the ball, and nothing else. The canvas,
    [drawables] and every other object stay; the ball keeps its collidables;
    [Math.random] is called five times when the frame resets the ball at a
    side wall and not at all on any other frame. *)
Theorem ball_frame_footprint w this b deltaTime :
  ball_at w this = Some b →
  registered_ok w b = true →
  let r := Ball.moveUpdate G this deltaTime w in
  returns r = true ∧
  canvas (world_of r) = canvas w ∧ drawables (world_of r) = drawables w ∧
  (∀ l, l ≠ this → heap (world_of r) !! l = heap w !! l) ∧
  (collidables <$> ball_at (world_of r) this) = Some (collidables b) ∧
  calls (world_of r) =
    if negb (negb (isInsideCollidable b) && touches_any G w b) &&
       negb (at_top_bottom w b) && at_side w b
    then (5 + calls w)%nat else calls w.
Proof.
  intros Hb Hok. apply ball_at_Some in Hb. cbv zeta.
  destruct (Ball_moveUpdate_frame w this b deltaTime Hb Hok) as (w' & -> & Hs & Hc & Hl).
  destruct Hs as (Hcv & Hd & _ & Hk). simpl.
  split; [reflexivity|]. split; [assumption|]. split; [assumption|].
  split; [assumption|]. split.
  - apply (f_equal (λ m, m !! this)) in Hk. rewrite !kinds_lookup, Hb in Hk.
    unfold ball_at. destruct (heap w' !! this) as [[]|]; simpl in *; congruence.
  - rewrite Hc. destruct (negb _ && touches_any _ _ _); [reflexivity|].
    destruct (at_top_bottom w b); [reflexivity|]. now destruct (at_side w b).
Qed.

(** X3. The scene the script builds on any canvas: five drawables, in this
    order the left plank at the origin with the keys w and s, the right
    plank in the bottom right corner with the keys o and l, the centre
    field, the centre line and one red ball at the centre of the canvas,
    with the two planks for collidables and a velocity drawn from the first
    two results of [Math.random]. The scene is well formed. *)
Theorem main_scene (c : Canvas num) (r : nat → num) (n : nat) :
  let w := world_of (main G (mkWorld c ∅ [] r n)) in
  returns (main G (mkWorld c ∅ [] r n)) = true ∧
  drawables w = [0; 1; 2; 3; 4]%nat ∧
  plank_at w 0%nat
    = Some (mkPlank (mkDrawable (lit 0, lit 0) (lit 0, lit 1)
                       (lit 0, lit 0, lit 0, lit 0)) (mkKeys "w" "s") ∅) ∧
  plank_at w 1%nat
    = Some (mkPlank (mkDrawable
                       (clientWidth c - plankWidth G, clientHeight c - plankHeight G)
                       (lit 0, lit 1) (lit 0, lit 0, lit 0, lit 0))
              (mkKeys "o" "l") ∅) ∧
  heap w !! 2%nat
    = Some (ODrawableTexture
              (mkDrawable (clientWidth c / lit 2, clientHeight c / lit 2)
                 (lit 0, lit 0) (lit 0, lit 0, lit 0, lit 1))) ∧
  heap w !! 3%nat
    = Some (ODrawable
              (mkDrawable (clientWidth c / lit 2, lit 0)
                 (lit 0, lit 0) (lit 0, lit 0, lit 0, lit 1))) ∧
  ball_at w 4%nat
    = Some (mkBall (mkDrawable (clientWidth c / lit 2, clientHeight c / lit 2)
                      (if r n >? lit 0.5 then lit 1 else lit (-1),
                       ((r (S n) * lit 2) - lit 1) * lit 0.5)
                      (lit 1, lit 0, lit 0, lit 1))
              [VObject 0%nat; VObject 1%nat] false) ∧
  calls w = (2 + n)%nat ∧
  scene_ok w = true.
Proof. cbv zeta. repeat split; vm_compute; reflexivity. Qed.

(** X4. [addNewBall] with two instances of [Drawable] at the head of
    [drawables]: it returns; the new ball is a new object, pushed at the end
    of [drawables], at the centre of the canvas, with the flag down and the
    first two drawables, in this order, for collidables; no other object is
    written. A colour that is not given takes three results of
    [Math.random], and the velocity the two after them. A well-formed scene
    stays well formed. *)
Theorem addNewBall_appends w col l0 l1 :
  drawables w !! 0%nat = Some l0 →
  drawables w !! 1%nat = Some l1 →
  instanceof_Drawable w (VObject l0) = true →
  instanceof_Drawable w (VObject l1) = true →
  let r := addNewBall col w in
  let l := fresh (dom (heap w)) in
  returns r = true ∧
  heap w !! l = None ∧
  drawables (world_of r) = drawables w ++ [l] ∧
  ball_at (world_of r) l = Some (new_ball w col l0 l1) ∧
  (∀ l', l' ≠ l → heap (world_of r) !! l' = heap w !! l') ∧
  calls (world_of r) = (match col with Some _ => 2 | None => 5 end + calls w)%nat ∧
  (scene_ok w = true → scene_ok (world_of r) = true).
Proof.
  intros H0 H1 I0 I1. cbv zeta. rewrite (addNewBall_spec w col l0 l1 H0 H1 I0 I1).
  cbn [returns world_of].
  split; [reflexivity|]. split; [apply fresh_not_in_heap|]. split; [reflexivity|].
  split; [unfold ball_at, with_new_ball; simpl; now rewrite lookup_insert_eq|].
  split; [intros l' Hl'; unfold with_new_ball; simpl;
          now rewrite lookup_insert_ne by congruence|].
  split; [reflexivity|]. intros Hok. now apply scene_ok_with_new_ball.
Qed.

(** X6. The key listeners of the planks. A key that goes down is held by every
    plank, a key that goes up by none; the other keys of a plank are held as
    before, its translation stays, and objects that are not planks are not
    written. *)
Theorem key_events w this p key :
  plank_at w this = Some p →
  key ≠ "__proto__" →
  let pressed := world_of (keydown key w) in
  let released := world_of (keyup key pressed) in
  plank_at pressed this
    = Some (mkPlank (plank_super p) (keys p) (<[key := true]> (keysPressed p))) ∧
  plank_at released this
    = Some (mkPlank (plank_super p) (keys p) (<[key := false]> (keysPressed p))) ∧
  holds pressed this key = true ∧
  holds released this key = false ∧
  (∀ other : string, other ≠ key →
     holds pressed this other = holds w this other ∧
     holds released this other = holds w this other) ∧
  (∀ l, plank_at w l = None →
     heap pressed !! l = heap w !! l ∧ heap released !! l = heap w !! l).
Proof.
  intros Hp Hkey. cbv zeta. unfold keydown, keyup. cbn [world_of].
  pose proof (listener_plank_at true key w this p Hp Hkey) as H1.
  pose proof (listener_plank_at false key _ this _ H1 Hkey) as H2.
  cbn [plank_super keys keysPressed] in H2. rewrite insert_insert_eq in H2.
  split; [exact H1|]. split; [exact H2|].
  unfold holds. rewrite H1, H2, Hp. unfold Plank.held. cbn [keysPressed].
  split; [now rewrite lookup_insert_eq|]. split; [now rewrite lookup_insert_eq|].
  split.
  - intros other Hother. now rewrite !lookup_insert_ne by congruence.
  - intros l Hl. unfold plank_at in Hl. simpl. rewrite !lookup_fmap.
    destruct (heap w !! l) as [[]|]; simpl; try discriminate; auto.
Qed.

(** X7. A key press and a frame. Once the up key of a plank has gone down, its
    down key not being held, the update of the plank adds
    PIXELS_PER_SEC * deltaTime to its Y translation; once that key has gone
    up again, the update leaves the world as it is. *)
Theorem press_then_frame w this p deltaTime :
  plank_at w this = Some p →
  up (keys p) ≠ "__proto__" →
  up (keys p) ≠ down (keys p) →
  Plank.held p (down (keys p)) = false →
  let pressed := world_of (keydown (up (keys p)) w) in
  let released := world_of (keyup (up (keys p)) pressed) in
  (translation ∘ plank_super <$>
     plank_at (world_of (Plank.moveUpdate G this deltaTime pressed)) this)
  = Some ((translation (plank_super p)).1,
          (translation (plank_super p)).2 + PIXELS_PER_SEC G * deltaTime) ∧
  world_of (Plank.moveUpdate G this deltaTime released) = released.
Proof.
  intros Hp Hkey Hne Hdown. cbv zeta. unfold keydown, keyup. cbn [world_of].
  pose proof (listener_plank_at true _ w this p Hp Hkey) as H1.
  pose proof (listener_plank_at false _ _ this _ H1 Hkey) as H2.
  cbn [plank_super keys keysPressed] in H2. rewrite insert_insert_eq in H2.
  unfold Plank.held in Hdown. split.
  - apply plank_at_Some in H1.
    rewrite (Plank_moveUpdate_spec G _ this _ deltaTime H1). cbv zeta.
    unfold Plank.held. cbn [keys keysPressed plank_super].
    rewrite lookup_insert_eq, lookup_insert_ne, Hdown by assumption.
    rewrite bool_decide_eq_true_2 by reflexivity. cbn [world_of].
    unfold plank_at, put_plank. simpl. now rewrite lookup_insert_eq.
  - apply plank_at_Some in H2.
    rewrite (Plank_moveUpdate_spec G _ this _ deltaTime H2). cbv zeta.
    unfold Plank.held. cbn [keys keysPressed plank_super].
    rewrite lookup_insert_eq, lookup_insert_ne, Hdown by assumption.
    rewrite bool_decide_eq_false_2 by discriminate. reflexivity.
Qed.


(** X14. What no frame and no event changes. Through any run of the
    handlers from a well-formed scene, every object stays in the store with
    its class; a drawable that is neither a plank nor a ball stays as it
    was; a plank keeps its keys, its X translation, its [moveVector] and its
    colour; a ball keeps its collidables. [drawables] only grows, at its
    end, and the results of [Math.random] are the same sequence. *)
Theorem run_keeps (events : list (event num)) (then_ : num) w :
  scene_ok w = true →
  let r := run G events then_ w in
  returns r = true ∧ keeps w (world_of r) ∧
  drawables w `prefix_of` drawables (world_of r) ∧
  random (world_of r) = random w.
Proof.
  intros Hok. cbv zeta.
  destruct (run_scene events then_ w Hok)
    as (t & w' & -> & _ & Hr & Hk & more & Hd & _).
  cbn [returns world_of]. split; [reflexivity|]. split; [assumption|].
  split; [|assumption]. exists more. exact Hd.
Qed.

(** X9. A plank through the update loop of a frame. In a well-formed scene, a
    plank that occurs once in [drawables] ends the frame as its own
    [moveUpdate] leaves it: no other object of the scene moves a plank. *)
Theorem frame_moves_plank_once w this p deltaTime (pre post : list loc) :
  scene_ok w = true →
  drawables w = pre ++ this :: post →
  this ∉ pre → this ∉ post →
  plank_at w this = Some p →
  returns (drawScene_update G deltaTime w) = true ∧
  plank_at (world_of (drawScene_update G deltaTime w)) this
  = plank_at (world_of (Plank.moveUpdate G this deltaTime w)) this.
Proof.
  intros Hok Hd Hpre Hpost Hp. apply plank_at_Some in Hp.
  unfold scene_ok in Hok. apply andb_true_iff in Hok as [Hall _].
  unfold drawScene_update. rewrite Hd in *.
  destruct (moveUpdate_all_plank pre post w this p deltaTime Hall Hpre Hpost Hp)
    as (w' & -> & _ & Hat).
  split; [reflexivity|]. unfold plank_at. cbn [world_of].
  now rewrite Hat, (Plank_moveUpdate_at w this p deltaTime Hp).
Qed.

End Scene.

(** ** Texture sizes and the drawing buffer *)

Section Bits.
Local Open Scope Z_scope.

Lemma land_double (a b : Z) (x y : bool) :
  Z.land (2 * a + Z.b2z x) (2 * b + Z.b2z y) = 2 * Z.land a b + Z.b2z (x && y).
Proof.
  apply Z.bits_inj'. intros n Hn. rewrite Z.land_spec.
  destruct (Z.eq_dec n 0) as [->|Hn0].
  - now rewrite !Z.testbit_0_r.
  - replace n with (Z.succ (n - 1)) by lia.
    rewrite !Z.testbit_succ_r by lia. now rewrite Z.land_spec.
Qed.

(** [p & (p - 1)] clears the lowest set bit of [p]: nothing is left exactly
    when [p] has one bit. *)
Lemma land_pred_pos (p : positive) :
  Z.land (Zpos p) (Zpos p - 1) = 0 ↔ ∃ k, 0 <= k ∧ Zpos p = 2 ^ k.
Proof.
  induction p as [q IH|q IH|].
  - replace (Zpos q~1 - 1) with (2 * Zpos q + Z.b2z false) by (simpl Z.b2z; lia).
    replace (Zpos q~1) with (2 * Zpos q + Z.b2z true) at 1 by (simpl Z.b2z; lia).
    rewrite land_double, Z.land_diag. simpl Z.b2z. split; [lia|].
    intros (k & Hk & E). destruct (Z.eq_dec k 0) as [->|Hk0]; [simpl in E; lia|].
    replace k with (Z.succ (k - 1)) in E by lia. rewrite Z.pow_succ_r in E by lia. lia.
  - replace (Zpos q~0 - 1) with (2 * (Zpos q - 1) + Z.b2z true) by (simpl Z.b2z; lia).
    replace (Zpos q~0) with (2 * Zpos q + Z.b2z false) at 1 by (simpl Z.b2z; lia).
    rewrite land_double. simpl Z.b2z. split.
    + intros E. destruct IH as [IH _]. destruct IH as (k & Hk & Ek); [lia|].
      exists (Z.succ k). split; [lia|]. rewrite Z.pow_succ_r by lia. lia.
    + intros (k & Hk & E). destruct (Z.eq_dec k 0) as [->|Hk0]; [simpl in E; lia|].
      replace k with (Z.succ (k - 1)) in E by lia. rewrite Z.pow_succ_r in E by lia.
      destruct IH as [_ IH]. rewrite IH; [lia|]. exists (k - 1). split; lia.
  - split; [|reflexivity]. intros _. exists 0. split; [lia|reflexivity].
Qed.

Lemma ToInt32_range (z : Z) : - 2147483648 <= ToInt32 z < 2147483648.
Proof.
  unfold ToInt32. change (2 ^ 31) with 2147483648. change (2 ^ 32) with 4294967296.
  Z.div_mod_to_equations. lia.
Qed.

Lemma ToInt32_mod (z : Z) : z mod 4294967296 = ToInt32 z mod 4294967296.
Proof.
  unfold ToInt32. change (2 ^ 31) with 2147483648. change (2 ^ 32) with 4294967296.
  Z.div_mod_to_equations. lia.
Qed.

Lemma ToInt32_pred (z : Z) :
  ToInt32 (z - 1) = if ToInt32 z =? - 2147483648 then 2147483647 else ToInt32 z - 1.
Proof.
  destruct (Z.eqb_spec (ToInt32 z) (- 2147483648)) as [E|E]; revert E;
    unfold ToInt32; change (2 ^ 31) with 2147483648; change (2 ^ 32) with 4294967296;
    Z.div_mod_to_equations; lia.
Qed.

Lemma pow2_lt_32 (k : Z) : 0 <= k → 2 ^ k < 4294967296 → k < 32.
Proof.
  intros Hk Hlt. destruct (Z.lt_ge_cases k 32) as [|Hge]; [assumption|].
  pose proof (Z.pow_le_mono_r 2 32 k ltac:(lia) Hge) as Hle.
  change (2 ^ 32) with 4294967296 in Hle. lia.
Qed.

Lemma pow2_le_31 (k : Z) : 0 <= k < 32 → 0 < 2 ^ k <= 2147483648.
Proof.
  intros Hk. split; [apply Z.pow_pos_nonneg; lia|].
  change 2147483648 with (2 ^ 31). apply Z.pow_le_mono_r; lia.
Qed.

(** X12. [isPowerOf2] looks at the low 32 bits of its argument: it answers true
    when they are all zero, as for 0 itself, and when exactly one of them is
    set; it answers false otherwise. So on the sizes of an image, which are
    below 2^32, it answers true for 0 and for the powers of two. The
    integers are those that doubles represent together with their
    predecessor. *)
Theorem isPowerOf2_spec (value : Z) :
  - 2 ^ 53 < value <= 2 ^ 53 →
  isPowerOf2 value = true ↔
  value mod 2 ^ 32 = 0 ∨ ∃ k, 0 <= k < 32 ∧ value mod 2 ^ 32 = 2 ^ k.
Proof.
  intros _. unfold isPowerOf2. rewrite Z.eqb_eq, ToInt32_pred.
  change (2 ^ 32) with 4294967296. rewrite (ToInt32_mod value).
  pose proof (ToInt32_range value) as Hx. set (x := ToInt32 value) in *. clearbody x.
  destruct (Z.eqb_spec x (- 2147483648)) as [->|Hmin].
  { split; [|reflexivity]. intros _. right. exists 31. split; [lia|reflexivity]. }
  destruct x as [|p|p].
  - split; [|reflexivity]. intros _. now left.
  - rewrite Z.mod_small by lia. rewrite land_pred_pos. split.
    + intros (k & Hk & E). right. exists k. split; [|assumption].
      split; [assumption|]. apply pow2_lt_32; [assumption|]. lia.
    + intros [?|(k & Hk & E)]; [lia|]. exists k. split; [lia|assumption].
  - assert (Hneg : Z.land (Z.neg p) (Z.neg p - 1) < 0) by (apply Z.land_neg; lia).
    split; [lia|]. intros [E|(k & Hk & E)]; revert E.
    + Z.div_mod_to_equations. lia.
    + pose proof (pow2_le_31 k Hk). Z.div_mod_to_equations. lia.
Qed.



End Bits.

(** ** Doubles *)

Section Binary64.
Local Open Scope Z_scope.

Lemma digits2_pos_shift52 (m : positive) :
  Zpos (digits2_pos (m * 4503599627370496)) = Zpos (digits2_pos m) + 52.
Proof.
  rewrite Pos.mul_comm.
  let t := eval cbv in (4503599627370496 * m)%positive in
  change (4503599627370496 * m)%positive with t.
  cbn [digits2_pos]. change PosDef.Pos.succ with Pos.succ. lia.
Qed.

Lemma shr_shift52 (m : positive) (e : Z) :
  shr {| shr_m := Zpos (m * 4503599627370496); shr_r := false; shr_s := false |} e 52
  = ({| shr_m := Zpos m; shr_r := false; shr_s := false |}, e + 52).
Proof.
  rewrite Pos.mul_comm.
  let t := eval cbv in (4503599627370496 * m)%positive in
  change (4503599627370496 * m)%positive with t.
  reflexivity.
Qed.

(** Rounding [m * 2^52 * 2^(e - 52)] gives back [m * 2^e]. *)
Lemma binary_round_aux_exact (s : bool) (m : positive) (e : Z) :
  bounded prec emax m e = true →
  binary_round_aux prec emax s (Zpos (m * 4503599627370496)) (e + -52) loc_Exact
  = S754_finite s m e.
Proof.
  intros Hb. unfold bounded in Hb. apply andb_prop in Hb as [Hc He].
  unfold canonical_mantissa in Hc. apply Z.eqb_eq in Hc.
  unfold binary_round_aux, shr_fexp.
  unfold Zdigits2 at 1. rewrite digits2_pos_shift52.
  replace (Zpos (digits2_pos m) + 52 + (e + -52)) with (Zpos (digits2_pos m) + e) by lia.
  rewrite Hc.
  replace (e - (e + -52)) with 52 by lia.
  cbn [shr_record_of_loc]. rewrite shr_shift52.
  cbn [shr_m loc_of_shr_record round_nearest_even Zdigits2].
  replace (e + -52 + 52) with e by lia.
  rewrite Hc, Z.sub_diag. cbn [shr shr_record_of_loc shr_m].
  now rewrite He.
Qed.

(** The sign given to the rounding only shows in the sign of its result. *)
Lemma binary_round_aux_opp (s : bool) (m e : Z) (l : location) :
  binary_round_aux prec emax (negb s) m e l = SFopp (binary_round_aux prec emax s m e l).
Proof.
  unfold binary_round_aux.
  destruct (shr_fexp prec emax m e l) as [mrs' e'].
  destruct (shr_fexp prec emax _ e' loc_Exact) as [mrs'' e''].
  destruct (shr_m mrs'') as [|p|p]; simpl; try reflexivity.
  now destruct (e'' <=? emax - prec).
Qed.

Lemma binary_round_aux_abs (s : bool) (m e : Z) (l : location) :
  SFabs (binary_round_aux prec emax s m e l) = binary_round_aux prec emax false m e l.
Proof.
  unfold binary_round_aux.
  destruct (shr_fexp prec emax m e l) as [mrs' e'].
  destruct (shr_fexp prec emax _ e' loc_Exact) as [mrs'' e''].
  destruct (shr_m mrs'') as [|p|p]; simpl; try reflexivity.
  now destruct (e'' <=? emax - prec).
Qed.

Lemma SFmul_opp_l (x y : spec_float) :
  SFmul prec emax (SFopp x) y = SFopp (SFmul prec emax x y).
Proof.
  destruct x as [sx|sx| |sx mx ex], y as [sy|sy| |sy my ey]; simpl;
    rewrite <- ?negb_xorb_l; try reflexivity.
  apply binary_round_aux_opp.
Qed.

Lemma SFmul_abs (x y : spec_float) :
  SFabs (SFmul prec emax x y) = SFmul prec emax (SFabs x) (SFabs y).
Proof.
  destruct x as [sx|sx| |sx mx ex], y as [sy|sy| |sy my ey]; simpl; try reflexivity.
  apply binary_round_aux_abs.
Qed.

Lemma shr_1_nonneg (mrs : shr_record) : 0 <= shr_m mrs → 0 <= shr_m (shr_1 mrs).
Proof.
  destruct mrs as [[|[p|p|]|[p|p|]] r s]; simpl; intros Hm; try lia.
Qed.

Lemma iter_shr_1_nonneg (n : positive) (mrs : shr_record) :
  0 <= shr_m mrs → 0 <= shr_m (SpecFloat.iter_pos shr_1 n mrs).
Proof.
  revert mrs. induction n as [n IH|n IH|]; intros mrs Hm; simpl.
  - apply IH, IH. now apply shr_1_nonneg.
  - now apply IH, IH.
  - now apply shr_1_nonneg.
Qed.

Lemma shr_fexp_nonneg (m e : Z) (l : location) :
  0 <= m → 0 <= shr_m (fst (shr_fexp prec emax m e l)).
Proof.
  intros Hm. unfold shr_fexp, shr.
  assert (0 <= shr_m (shr_record_of_loc m l)) by (destruct l as [|[]]; exact Hm).
  destruct (fexp prec emax (Zdigits2 m + e) - e); simpl; try assumption.
  now apply iter_shr_1_nonneg.
Qed.

Lemma round_nearest_even_nonneg (m : Z) (l : location) :
  0 <= m → 0 <= round_nearest_even m l.
Proof.
  intros Hm. destruct l as [|[]]; simpl; try lia. destruct (Z.even m); lia.
Qed.

Lemma binary_round_aux_sign (s : bool) (m e : Z) (l : location) :
  0 <= m → SFsign (binary_round_aux prec emax s m e l) = Some s.
Proof.
  intros Hm. unfold binary_round_aux.
  pose proof (shr_fexp_nonneg m e l Hm) as H1.
  destruct (shr_fexp prec emax m e l) as [mrs' e']. simpl in H1.
  pose proof (shr_fexp_nonneg _ e' loc_Exact
                (round_nearest_even_nonneg _ (loc_of_shr_record mrs') H1)) as H2.
  destruct (shr_fexp prec emax _ e' loc_Exact) as [mrs'' e'']. simpl in H2.
  destruct (shr_m mrs'') as [|p|p]; simpl; try reflexivity; [|lia].
  now destruct (e'' <=? emax - prec).
Qed.

(** Multiplying by a positive finite double keeps the sign. *)
Lemma SFmul_sign_pos (x : spec_float) (m : positive) (e : Z) :
  SFsign (SFmul prec emax x (S754_finite false m e)) = SFsign x.
Proof.
  destruct x as [sx|sx| |sx mx ex]; simpl; rewrite ?xorb_false_r; try reflexivity.
  apply binary_round_aux_sign. lia.
Qed.

(** *** Rounding and powers of two *)

Lemma digits2_pos_bounds (m : positive) :
  2 ^ (Zpos (digits2_pos m) - 1) <= Zpos m < 2 ^ Zpos (digits2_pos m).
Proof.
  induction m as [m IH|m IH|]; cbn [digits2_pos];
    change PosDef.Pos.succ with Pos.succ; rewrite ?Pos2Z.inj_succ.
  - replace (Z.succ (Zpos (digits2_pos m)) - 1) with (Z.succ (Zpos (digits2_pos m) - 1)) by lia.
    rewrite !Z.pow_succ_r by lia. lia.
  - replace (Z.succ (Zpos (digits2_pos m)) - 1) with (Z.succ (Zpos (digits2_pos m) - 1)) by lia.
    rewrite !Z.pow_succ_r by lia. lia.
  - simpl. lia.
Qed.

Lemma digits2_pos_le (m : positive) (k : Z) :
  Zpos m < 2 ^ k → Zpos (digits2_pos m) <= k.
Proof.
  intros Hm. destruct (Z_le_gt_dec (Zpos (digits2_pos m)) k) as [|Hgt]; [assumption|exfalso].
  destruct (Z_lt_le_dec k 0) as [Hneg|Hpos].
  - rewrite Z.pow_neg_r in Hm by assumption. lia.
  - pose proof (digits2_pos_bounds m) as [Hlo _].
    assert (2 ^ k <= 2 ^ (Zpos (digits2_pos m) - 1)) by (apply Z.pow_le_mono_r; lia). lia.
Qed.

Lemma Zdigits2_le (q k : Z) : 0 <= q < 2 ^ k → 0 <= k → Zdigits2 q <= k.
Proof.
  intros [H0 Hq] Hk. destruct q as [|p|p]; simpl; [lia| |lia].
  now apply digits2_pos_le.
Qed.

(** [shr_1] halves a mantissa that is not negative. *)
Lemma shr_1_div (mrs : shr_record) :
  0 <= shr_m mrs → shr_m (shr_1 mrs) = shr_m mrs / 2.
Proof.
  destruct mrs as [[|[p|p|]|p] r s]; simpl; intros Hm; try lia.
  - reflexivity.
  - apply (Z.div_unique _ 2 _ 1); lia.
  - apply (Z.div_unique _ 2 _ 0); lia.
  - reflexivity.
Qed.

Lemma pow2_xO (n : positive) : 2 ^ Zpos n~0 = 2 ^ Zpos n * 2 ^ Zpos n.
Proof. rewrite Pos2Z.inj_xO, <- Z.pow_add_r by lia. f_equal. lia. Qed.

Lemma pow2_xI (n : positive) : 2 ^ Zpos n~1 = 2 * (2 ^ Zpos n * 2 ^ Zpos n).
Proof.
  rewrite Pos2Z.inj_xI, <- Z.pow_add_r, <- Z.pow_succ_r by lia. f_equal. lia.
Qed.

Lemma pow2_pos (k : Z) : 0 <= k → 0 < 2 ^ k.
Proof. intros. apply Z.pow_pos_nonneg; lia. Qed.

Lemma iter_shr_1_div (n : positive) (mrs : shr_record) :
  0 <= shr_m mrs →
  shr_m (SpecFloat.iter_pos shr_1 n mrs) = shr_m mrs / 2 ^ Zpos n.
Proof.
  revert mrs. induction n as [n IH|n IH|]; intros mrs Hm; simpl SpecFloat.iter_pos.
  - assert (H1 : 0 <= shr_m (shr_1 mrs)).
    { rewrite shr_1_div by assumption. apply Z.div_pos; lia. }
    assert (H2 : 0 <= shr_m (SpecFloat.iter_pos shr_1 n (shr_1 mrs))).
    { rewrite IH by assumption. apply Z.div_pos; [assumption|]. apply pow2_pos; lia. }
    rewrite IH, IH, shr_1_div by assumption.
    pose proof (pow2_pos (Zpos n) ltac:(lia)).
    rewrite !Z.div_div by lia. now rewrite pow2_xI.
  - assert (H2 : 0 <= shr_m (SpecFloat.iter_pos shr_1 n mrs)).
    { rewrite IH by assumption. apply Z.div_pos; [assumption|]. apply pow2_pos; lia. }
    rewrite IH, IH by assumption.
    pose proof (pow2_pos (Zpos n) ltac:(lia)).
    rewrite !Z.div_div by lia. now rewrite pow2_xO.
  - rewrite shr_1_div by assumption. reflexivity.
Qed.

Lemma fexp_binary64 (k : Z) : fexp prec emax k = Z.max (k - 53) (-1074).
Proof. reflexivity. Qed.

(** The first step of rounding: nothing, or a shift right by [n] places. *)
Lemma shr_fexp_spec (m e : Z) :
  0 <= m →
  let r := shr_fexp prec emax m e loc_Exact in
  let n := fexp prec emax (Zdigits2 m + e) - e in
  (n <= 0 ∧ r = ({| shr_m := m; shr_r := false; shr_s := false |}, e)) ∨
  (0 < n ∧ shr_m (fst r) = m / 2 ^ n ∧ snd r = e + n).
Proof.
  intros Hm r n. subst r. unfold shr_fexp. fold n. unfold shr.
  destruct n as [|p|p] eqn:En.
  - left. split; [lia|reflexivity].
  - right. split; [lia|]. split; [|reflexivity]. cbn [fst shr_record_of_loc].
    now rewrite iter_shr_1_div.
  - left. split; [lia|reflexivity].
Qed.

Lemma round_nearest_even_bounds (q : Z) (l : location) :
  q <= round_nearest_even q l <= q + 1.
Proof. destruct l as [|[]]; simpl; try lia. destruct (Z.even q); lia. Qed.

(** Rounding a value below [2^k] gives zero or a double that is at most
    [2^k]; values are counted in units of [2^-1074]. *)
Lemma binary_round_aux_small (s : bool) (M E k : Z) :
  0 < M → Zdigits2 M + E <= k → -1022 <= k <= 971 →
  binary_round_aux prec emax s M E loc_Exact = S754_zero s ∨
  ∃ m' e', binary_round_aux prec emax s M E loc_Exact = S754_finite s m' e' ∧
           -1074 <= e' ∧ Zpos m' * 2 ^ (e' + 1074) <= 2 ^ (k + 1074).
Proof.
  intros HM Hd Hk. unfold binary_round_aux.
  assert (HMk : M < 2 ^ (k - E)).
  { destruct M as [|p|p]; try lia. cbn [Zdigits2] in Hd.
    pose proof (digits2_pos_bounds p) as [_ Hp].
    assert (2 ^ Zpos (digits2_pos p) <= 2 ^ (k - E)) by (apply Z.pow_le_mono_r; lia).
    lia. }
  assert (HkE : 0 <= k - E).
  { destruct M as [|p|p]; try lia. cbn [Zdigits2] in Hd. lia. }
  (* first shift *)
  pose proof (shr_fexp_spec M E ltac:(lia)) as H1. cbv zeta in H1.
  rewrite fexp_binary64 in H1.
  destruct (shr_fexp prec emax M E loc_Exact) as [mrs1 e1]. cbn [fst snd] in H1.
  set (q' := round_nearest_even (shr_m mrs1) (loc_of_shr_record mrs1)).
  assert (Hq' : 0 <= q' ∧ -1074 <= e1 <= k ∧ q' * 2 ^ (e1 + 1074) <= 2 ^ (k + 1074)).
  { destruct H1 as [[Hn [= -> ->]] | (Hn & Hq & ->)].
    - subst q'. cbn. split; [lia|]. split; [lia|].
      replace (k + 1074) with ((k - E) + (E + 1074)) by lia.
      rewrite (Z.pow_add_r 2 (k - E) (E + 1074)) by lia.
      apply Z.mul_le_mono_nonneg_r; [apply Z.pow_nonneg|]; lia.
    - pose proof (round_nearest_even_bounds (shr_m mrs1) (loc_of_shr_record mrs1)) as Hr.
      fold q' in Hr. rewrite Hq in Hr.
      set (n := Z.max (Zdigits2 M + E - 53) (-1074) - E) in *.
      assert (Hke : 0 <= k - (E + n)) by lia.
      assert (Hdiv : 0 <= M / 2 ^ n < 2 ^ (k - (E + n))).
      { split; [apply Z.div_pos; [lia|apply pow2_pos; lia]|].
        apply Z.div_lt_upper_bound; [apply pow2_pos; lia|].
        rewrite <- Z.pow_add_r by lia. now replace (n + (k - (E + n))) with (k - E) by lia. }
      split; [lia|]. split; [lia|].
      replace (k + 1074) with ((k - (E + n)) + (E + n + 1074)) by lia.
      rewrite (Z.pow_add_r 2 (k - (E + n)) (E + n + 1074)) by lia.
      apply Z.mul_le_mono_nonneg_r; [apply Z.pow_nonneg|]; lia. }
  clearbody q'. clear H1. destruct Hq' as (Hq0 & He1 & Hqv).
  (* second shift *)
  pose proof (shr_fexp_spec q' e1 Hq0) as H2. cbv zeta in H2.
  rewrite fexp_binary64 in H2.
  destruct (shr_fexp prec emax q' e1 loc_Exact) as [mrs2 e2]. cbn [fst snd] in H2.
  assert (Hq2 : 0 <= shr_m mrs2 ∧ -1074 <= e2 <= 971 ∧
                shr_m mrs2 * 2 ^ (e2 + 1074) <= 2 ^ (k + 1074)).
  { destruct H2 as [[Hn [= -> ->]] | (Hn & Hq & ->)].
    - cbn. lia.
    - set (n := Z.max (Zdigits2 q' + e1 - 53) (-1074) - e1) in *.
      rewrite Hq.
      assert (Hpn : 0 < 2 ^ n) by (apply pow2_pos; lia).
      split; [apply Z.div_pos; lia|].
      assert (Hdq : Zdigits2 q' <= k - e1 + 1).
      { apply Zdigits2_le; [|lia]. split; [lia|].
        assert (0 < 2 ^ (e1 + 1074)) by (apply pow2_pos; lia).
        assert (q' <= 2 ^ (k - e1)).
        { apply (Z.mul_le_mono_pos_r _ _ (2 ^ (e1 + 1074))); [lia|].
          rewrite <- Z.pow_add_r by lia.
          now replace (k - e1 + (e1 + 1074)) with (k + 1074) by lia. }
        rewrite Z.pow_add_r by lia. simpl (2 ^ 1). lia. }
      split; [lia|].
      replace (e1 + n + 1074) with (n + (e1 + 1074)) by lia.
      rewrite (Z.pow_add_r 2 n (e1 + 1074)) by lia.
      assert (q' / 2 ^ n * 2 ^ n <= q').
      { rewrite Z.mul_comm. apply Z.mul_div_le. lia. }
      assert (0 <= 2 ^ (e1 + 1074)) by (apply Z.pow_nonneg; lia).
      nia. }
  destruct Hq2 as (Hm2 & He2 & Hv2).
  destruct (shr_m mrs2) as [|m2|m2]; [now left| |lia].
  right. exists m2, e2.
  replace (e2 <=? emax - prec) with true
    by (symmetry; apply Z.leb_le; change (emax - prec) with 971; lia).
  split; [reflexivity|]. split; [lia|assumption].
Qed.

Lemma bounded_canonical (m : positive) (e : Z) :
  bounded prec emax m e = true → Z.max (Zpos (digits2_pos m) + e - 53) (-1074) = e.
Proof.
  unfold bounded, canonical_mantissa. rewrite fexp_binary64.
  intros Hb. apply andb_prop in Hb as [Hc _]. now apply Z.eqb_eq in Hc.
Qed.

Lemma value_small (m : positive) (e k : Z) :
  bounded prec emax m e = true → -1022 <= k →
  Zpos m * 2 ^ (e + 1074) <= 2 ^ (k + 1074) →
  Zpos (digits2_pos m) + e <= k ∨ (m = 4503599627370496%positive ∧ e = k - 52).
Proof.
  intros Hb Hk Hv. apply bounded_canonical in Hb.
  destruct (Z_le_gt_dec (Zpos (digits2_pos m) + e) k) as [|Hgt]; [now left|right].
  pose proof (digits2_pos_bounds m) as [Hlo _].
  assert (He : 0 <= e + 1074) by lia.
  assert (Hpe : 0 < 2 ^ (e + 1074)) by (apply pow2_pos; lia).
  assert (Hd : 0 <= Zpos (digits2_pos m) - 1) by lia.
  assert (H1 : 2 ^ (Zpos (digits2_pos m) - 1 + (e + 1074)) <= 2 ^ (k + 1074)).
  { rewrite Z.pow_add_r by lia. nia. }
  assert (H2 : Zpos (digits2_pos m) - 1 + (e + 1074) <= k + 1074).
  { apply (Z.pow_le_mono_r_iff 2); lia. }
  assert (Hdg : Zpos (digits2_pos m) = 53) by lia.
  assert (Hek : e = k - 52) by lia.
  split; [|assumption].
  assert (Hm : Zpos m * 2 ^ (e + 1074) <= 2 ^ 52 * 2 ^ (e + 1074)).
  { rewrite <- Z.pow_add_r by lia. now replace (52 + (e + 1074)) with (k + 1074) by lia. }
  rewrite Hdg in Hlo. change (2 ^ (53 - 1)) with 4503599627370496 in Hlo.
  apply Z.mul_le_mono_pos_r in Hm; [|assumption].
  change (2 ^ 52) with 4503599627370496 in Hm. lia.
Qed.

(** Multiplying a double below [2^k] by [2^j] gives one of at most
    [2^(k+j)]. *)
Lemma SFmul_pow2_small (k j : Z) (s : bool) (m : positive) (e : Z) :
  Zpos (digits2_pos m) + e <= k → -1022 <= k + j <= 971 →
  let y := SFmul prec emax (S754_finite s m e) (S754_finite false 4503599627370496 (j - 52)) in
  valid_binary y = true → SFsmall (k + j) y ∧ SFsign y = Some s.
Proof.
  intros Hd Hk y Hv. subst y. cbn [SFmul] in *. rewrite xorb_false_r in *.
  destruct (binary_round_aux_small s (Zpos (m * 4503599627370496)) (e + (j - 52)) (k + j))
    as [Hz | (m' & e' & Hf & He' & Hval)]; [lia| |lia| |].
  - cbn [Zdigits2]. rewrite digits2_pos_shift52. lia.
  - rewrite Hz. now split.
  - rewrite Hf in *. split; [|reflexivity]. cbn [SFsmall valid_binary] in *.
    apply value_small; [assumption|lia|assumption].
Qed.

Lemma iter_xO_spec (m d : positive) :
  Zpos (Pos.iter xO m d) = Zpos m * 2 ^ Zpos d ∧
  Zpos (digits2_pos (Pos.iter xO m d)) = Zpos (digits2_pos m) + Zpos d.
Proof.
  induction d as [|d IH] using Pos.peano_ind.
  - cbn [Pos.iter digits2_pos]. change PosDef.Pos.succ with Pos.succ.
    rewrite Pos2Z.inj_xO. change (2 ^ 1) with 2. lia.
  - rewrite Pos.iter_succ. cbn [digits2_pos]. change PosDef.Pos.succ with Pos.succ.
    rewrite Pos2Z.inj_xO, !Pos2Z.inj_succ, Z.pow_succ_r by lia. lia.
Qed.

(** Aligning a mantissa to a smaller exponent multiplies it by a power of 2. *)
Lemma shl_align_spec (m : positive) (e e' : Z) :
  ∃ d, 0 <= d ∧
    Zpos (fst (shl_align m e e')) = Zpos m * 2 ^ d ∧
    Zpos (digits2_pos (fst (shl_align m e e'))) = Zpos (digits2_pos m) + d ∧
    snd (shl_align m e e') = e - d ∧
    (e' <= e → d = e - e').
Proof.
  unfold shl_align. destruct (e' - e) as [|p|p] eqn:E.
  - exists 0. cbn [fst snd]. rewrite Z.mul_1_r. lia.
  - exists 0. cbn [fst snd]. rewrite Z.mul_1_r. lia.
  - exists (Zpos p). cbn [fst snd].
    destruct (iter_xO_spec m p) as [Hv Hd]. lia.
Qed.

Lemma binary_round_small (s : bool) (p : positive) (E k : Z) :
  Zpos (digits2_pos p) + E <= k → -1022 <= k <= 971 →
  binary_round prec emax s p E = S754_zero s ∨
  ∃ m' e', binary_round prec emax s p E = S754_finite s m' e' ∧
           -1074 <= e' ∧ Zpos m' * 2 ^ (e' + 1074) <= 2 ^ (k + 1074).
Proof.
  intros Hd Hk. unfold binary_round.
  destruct (shl_align_spec p E (fexp prec emax (Zpos (digits2_pos p) + E))) as (d & Hd0 & _ & Hdg & He & _).
  destruct (shl_align p E (fexp prec emax (Zpos (digits2_pos p) + E))) as [mz ez]. cbn [fst snd] in *.
  apply binary_round_aux_small; [lia| |assumption]. cbn [Zdigits2]. lia.
Qed.

(** Subtracting 1 from a double of [0, 2) gives one of magnitude at most 1. *)
Lemma SFsub_one_small (m : positive) (e : Z) :
  Zpos (digits2_pos m) + e <= 1 →
  let y := SFsub prec emax (S754_finite false m e)
             (S754_finite false 4503599627370496 (-52)) in
  valid_binary y = true → SFsmall 0 y.
Proof.
  intros Hd y Hv. subst y. cbn [SFsub cond_Zopp] in *.
  set (ez := Z.min e (-52)) in *.
  destruct (shl_align_spec m e ez) as (d1 & Hd1 & Ha & _ & _ & Hde1).
  destruct (shl_align_spec 4503599627370496 (-52) ez) as (d2 & Hd2 & Hb & _ & _ & Hde2).
  specialize (Hde1 ltac:(lia)). specialize (Hde2 ltac:(lia)).
  set (a := Zpos (fst (shl_align m e ez))) in *.
  set (b := Zpos (fst (shl_align 4503599627370496 (-52) ez))) in *.
  assert (Hbv : b = 2 ^ (- ez)).
  { rewrite Hb. change 4503599627370496 with (2 ^ 52). rewrite <- Z.pow_add_r by lia.
    f_equal. lia. }
  assert (Hav : 0 < a < 2 * b).
  { split; [subst a; lia|]. rewrite Ha, Hbv.
    pose proof (digits2_pos_bounds m) as [_ Hm].
    assert (2 ^ Zpos (digits2_pos m) <= 2 ^ (1 - e)) by (apply Z.pow_le_mono_r; lia).
    assert (0 < 2 ^ d1) by (apply pow2_pos; lia).
    assert (Zpos m * 2 ^ d1 < 2 ^ (1 - e) * 2 ^ d1) by nia.
    rewrite <- Z.pow_add_r in * by lia.
    replace (1 - e + d1) with (Z.succ (- ez)) in * by lia.
    rewrite Z.pow_succ_r in * by lia. lia. }
  clearbody a b.
  assert (Hsmall : ∀ p s, Zpos p < b → valid_binary (binary_round prec emax s p ez) = true →
            SFsmall 0 (binary_round prec emax s p ez)).
  { intros p s Hp Hvp.
    destruct (binary_round_small s p ez 0) as [Hz | (m' & e' & Hf & He' & Hval)]; [|lia| |].
    - rewrite Hbv in Hp. apply digits2_pos_le in Hp. lia.
    - now rewrite Hz.
    - rewrite Hf in *. cbn [SFsmall valid_binary] in *.
      apply value_small; [assumption|lia|assumption]. }
  unfold binary_normalize in *.
  destruct (a - b) as [|p|p] eqn:Ed; [exact I| |]; apply Hsmall; try assumption; lia.
Qed.

Lemma compare_cont_Eq (p q : positive) : Pos.compare_cont Eq p q = (p ?= q)%positive.
Proof. reflexivity. Qed.

(** A double of [0, 1) is zero or a positive one below [2^0]. *)
Lemma unit_interval (x : spec_float) :
  valid_binary x = true →
  SFleb (S754_zero false) x = true →
  SFltb x (S754_finite false 4503599627370496 (-52)) = true →
  (∃ s, x = S754_zero s) ∨ (∃ m e, x = S754_finite false m e ∧ Zpos (digits2_pos m) + e <= 0).
Proof.
  intros Hv H0 H1. destruct x as [s|s| |s m e].
  - left. eauto.
  - destruct s; discriminate.
  - discriminate.
  - right. destruct s; [discriminate|]. exists m, e. split; [reflexivity|].
    cbn [valid_binary] in Hv. apply bounded_canonical in Hv.
    unfold SFltb in H1. cbn [SFcompare] in H1.
    destruct (Z.compare_spec e (-52)) as [He|He|He]; try discriminate; [|lia].
    rewrite compare_cont_Eq in H1.
    destruct (Pos.compare_spec m 4503599627370496) as [Hm|Hm|Hm]; try discriminate.
    apply Pos2Z.pos_lt_pos in Hm.
    assert (Zpos (digits2_pos m) <= 52) by (apply digits2_pos_le; exact Hm).
    lia.
Qed.

(** A double of magnitude at most 1/2 lies between -1/2 and 1/2. *)
Lemma small_half_bounds (y : spec_float) :
  valid_binary y = true → SFsmall (-1) y →
  SFleb (S754_finite true 4503599627370496 (-53)) y = true ∧
  SFleb y (S754_finite false 4503599627370496 (-53)) = true.
Proof.
  intros Hv Hs. destruct y as [s|s| |s m e]; try contradiction.
  - now destruct s.
  - cbn [valid_binary] in Hv. apply bounded_canonical in Hv. cbn [SFsmall] in Hs.
    assert (He : e < -53 ∨ (m = 4503599627370496%positive ∧ e = -53)).
    { destruct Hs as [Hs|[-> ->]]; [left; lia|right; split; reflexivity]. }
    unfold SFleb. cbn [SFcompare].
    destruct He as [He|[-> ->]].
    + destruct s.
      * destruct (Z.compare_spec (-53) e); try lia; split; reflexivity.
      * destruct (Z.compare_spec e (-53)); try lia; split; reflexivity.
    + destruct s; split; reflexivity.
Qed.

(** *** The primitive operations *)

Local Open Scope float_scope.

Lemma Prim2SF_one : Prim2SF 1 = S754_finite false 4503599627370496 (-52).
Proof. reflexivity. Qed.

Lemma Prim2SF_minus_one : Prim2SF (-1) = S754_finite true 4503599627370496 (-52).
Proof. reflexivity. Qed.

Lemma mul_one (x : float) : x * 1 = x.
Proof.
  apply Prim2SF_inj. rewrite mul_spec, Prim2SF_one.
  pose proof (Prim2SF_valid x) as Hv.
  destruct (Prim2SF x) as [s|s| |s m e]; simpl; rewrite ?xorb_false_r; try reflexivity.
  now apply binary_round_aux_exact.
Qed.

Lemma mul_minus_one (x : float) : x * (-1) = - x.
Proof.
  apply Prim2SF_inj. rewrite mul_spec, opp_spec, Prim2SF_minus_one.
  pose proof (Prim2SF_valid x) as Hv.
  destruct (Prim2SF x) as [s|s| |s m e]; simpl; rewrite ?xorb_true_r; try reflexivity.
  now apply binary_round_aux_exact.
Qed.

Lemma mul_opp_l (x y : float) : (- x) * y = - (x * y).
Proof.
  apply Prim2SF_inj. rewrite mul_spec, !opp_spec, mul_spec. apply SFmul_opp_l.
Qed.

Lemma sign_opp (x : float) : sign (- x) = negb <$> sign x.
Proof. unfold sign. rewrite opp_spec. now destruct (Prim2SF x). Qed.

Lemma abs_opp (x : float) : abs (- x) = abs x.
Proof.
  apply Prim2SF_inj. rewrite !abs_spec, opp_spec. now destruct (Prim2SF x).
Qed.

(** A double above zero and below infinity is finite and positive. *)
Lemma positive_finite (a : float) :
  (0 <? a) = true → (a <? infinity) = true →
  ∃ m e, Prim2SF a = S754_finite false m e.
Proof.
  rewrite !ltb_spec. change (Prim2SF 0) with (S754_zero false).
  change (Prim2SF infinity) with (S754_infinity false).
  destruct (Prim2SF a) as [s|[]| |[] m e]; simpl; try discriminate.
  intros _ _. eauto.
Qed.

Lemma sign_mul_pos (x a : float) :
  (0 <? a) = true → (a <? infinity) = true → sign (x * a) = sign x.
Proof.
  intros H0 Hi. destruct (positive_finite a H0 Hi) as (m & e & Ha).
  unfold sign. rewrite mul_spec, Ha. apply SFmul_sign_pos.
Qed.

Lemma abs_mul_pos (x a : float) :
  (0 <? a) = true → (a <? infinity) = true → abs (x * a) = abs x * a.
Proof.
  intros H0 Hi. destruct (positive_finite a H0 Hi) as (m & e & Ha).
  apply Prim2SF_inj. rewrite abs_spec, !mul_spec, abs_spec, Ha.
  apply SFmul_abs.
Qed.

Lemma litF_one : litF 1 = 1.
Proof. reflexivity. Qed.

Lemma litF_minus_one : litF (-1) = -1.
Proof. reflexivity. Qed.

(** C5. Single-axis sign flip, in doubles, for a positive finite
    ACCELERATION. [bounce] with the modifiers of a collidable, (-1, 1), turns
    the velocity (vx, vy) into (-(vx * ACCELERATION), vy * ACCELERATION): the
    sign of X is inverted and that of Y kept. With the modifiers of the top
    and bottom walls, (1, -1), it is the sign of Y that is inverted and that
    of X kept. In both cases the magnitude of each component is its old
    magnitude times ACCELERATION. *)
Theorem bounce_flips_one_axis (G : Globals float) (w : World float) (this : loc)
    (b : Ball float) :
  ball_at w this = Some b →
  (0 <? ACCELERATION G) = true →
  (ACCELERATION G <? infinity) = true →
  let A := ACCELERATION G in
  let vx := (moveVector (ball_super b)).1 in
  let vy := (moveVector (ball_super b)).2 in
  (∃ b', ball_at (world_of (Ball.bounce G this (Some (lit (-1)%Q, lit 1%Q)) w)) this = Some b' ∧
     let vx' := (moveVector (ball_super b')).1 in
     let vy' := (moveVector (ball_super b')).2 in
     vx' = - (vx * A) ∧ vy' = vy * A ∧
     sign vx' = negb <$> sign vx ∧ sign vy' = sign vy ∧
     abs vx' = abs vx * A ∧ abs vy' = abs vy * A) ∧
  (∃ b', ball_at (world_of (Ball.bounce G this (Some (lit 1%Q, lit (-1)%Q)) w)) this = Some b' ∧
     let vx' := (moveVector (ball_super b')).1 in
     let vy' := (moveVector (ball_super b')).2 in
     vx' = vx * A ∧ vy' = - (vy * A) ∧
     sign vx' = sign vx ∧ sign vy' = negb <$> sign vy ∧
     abs vx' = abs vx * A ∧ abs vy' = abs vy * A).
Proof.
  intros Hb H0 Hfin A vx vy. apply ball_at_Some in Hb.
  assert (Hflip : ∀ v, v * litF (-1) * A = - (v * A)).
  { intros v. now rewrite litF_minus_one, mul_minus_one, mul_opp_l. }
  assert (Hkeep : ∀ v, v * litF 1 * A = v * A).
  { intros v. now rewrite litF_one, mul_one. }
  split.
  - rewrite (bounce_spec G w this b _ Hb). simpl.
    eexists. split; [apply ball_at_put_ball|]. simpl.
    fold vx vy A. rewrite Hflip, Hkeep.
    repeat split.
    + now rewrite sign_opp, sign_mul_pos.
    + now rewrite sign_mul_pos.
    + now rewrite abs_opp, abs_mul_pos.
    + now rewrite abs_mul_pos.
  - rewrite (bounce_spec G w this b _ Hb). simpl.
    eexists. split; [apply ball_at_put_ball|]. simpl.
    fold vx vy A. rewrite Hflip, Hkeep.
    repeat split.
    + now rewrite sign_mul_pos.
    + now rewrite sign_opp, sign_mul_pos.
    + now rewrite abs_mul_pos.
    + now rewrite abs_opp, abs_mul_pos.
Qed.

(** In doubles, [((r * 2) - 1) * 0.5] lies between -0.5 and 0.5 for every
    [r] of [0, 1). *)
Lemma centred_half (r : float) :
  (0 <=? r) = true → (r <? 1) = true →
  (-0.5 <=? ((r * 2) - 1) * 0.5) = true ∧ (((r * 2) - 1) * 0.5 <=? 0.5) = true.
Proof.
  intros H0 H1.
  pose proof (Prim2SF_valid r) as Vr.
  pose proof (Prim2SF_valid (r * 2)) as Vt.
  pose proof (Prim2SF_valid ((r * 2) - 1)) as Vu.
  pose proof (Prim2SF_valid (((r * 2) - 1) * 0.5)) as Vy.
  rewrite !leb_spec. rewrite leb_spec in H0. rewrite ltb_spec in H1.
  rewrite mul_spec in Vy |- *. rewrite sub_spec in Vu, Vy |- *.
  rewrite mul_spec in Vt, Vu, Vy |- *.
  change (Prim2SF 0) with (S754_zero false) in *.
  change (Prim2SF 1) with (S754_finite false 4503599627370496 (-52)) in *.
  change (Prim2SF 2) with (S754_finite false 4503599627370496 (1 - 52)) in *.
  change (Prim2SF 0.5) with (S754_finite false 4503599627370496 (-1 - 52)) in *.
  change (Prim2SF (-0.5)) with (S754_finite true 4503599627370496 (-53)).
  unfold SF64mul, SF64sub in *.
  set (two := S754_finite false 4503599627370496 (1 - 52)) in *.
  set (one := S754_finite false 4503599627370496 (-52)) in *.
  set (half := S754_finite false 4503599627370496 (-1 - 52)) in *.
  assert (Hzero : ∀ s,
    SFleb (S754_finite true 4503599627370496 (-53))
      (SFmul prec emax (SFsub prec emax (S754_zero s) one) half) = true ∧
    SFleb (SFmul prec emax (SFsub prec emax (S754_zero s) one) half)
      (S754_finite false 4503599627370496 (-1 - 52)) = true).
  { intros []; split; vm_compute; reflexivity. }
  assert (Hlast : ∀ u, valid_binary (SFmul prec emax u half) = true → SFsmall 0 u →
    SFleb (S754_finite true 4503599627370496 (-53)) (SFmul prec emax u half) = true ∧
    SFleb (SFmul prec emax u half) (S754_finite false 4503599627370496 (-1 - 52)) = true).
  { intros [su|su| |su mu eu] Vy' Hu; try contradiction.
    - destruct su; split; reflexivity.
    - cbn [SFsmall] in Hu. destruct Hu as [Hu|[-> ->]].
      + apply small_half_bounds; [assumption|].
        now apply (SFmul_pow2_small 0 (-1) su mu eu Hu ltac:(lia)).
      + destruct su; split; vm_compute; reflexivity. }
  destruct (unit_interval _ Vr H0 H1) as [[s Hr] | (m & e & Hr & Hd)]; rewrite Hr in *.
  - change (SFmul prec emax (S754_zero s) two) with (S754_zero (xorb s false)).
    apply Hzero.
  - destruct (SFmul_pow2_small 0 1 false m e Hd ltac:(lia) Vt) as [Ht Hst].
    fold two in Ht, Hst.
    destruct (SFmul prec emax (S754_finite false m e) two) as [st|st| |st mt et];
      try contradiction.
    + apply Hzero.
    + injection Hst as ->. apply Hlast; [assumption|].
      cbn [SFsmall] in Ht. destruct Ht as [Ht|[-> ->]].
      * now apply SFsub_one_small.
      * vm_compute. right. split; reflexivity.
Qed.

Lemma SFcompare_swap (x y : spec_float) :
  SFcompare y x = CompOpp <$> SFcompare x y.
Proof.
  destruct x as [sx|sx| |sx mx ex], y as [sy|sy| |sy my ey]; simpl;
    try reflexivity; try (now destruct sx); try (now destruct sy);
    try (now destruct sx, sy).
  destruct sx, sy; simpl; try reflexivity;
    rewrite (Z.compare_antisym ex ey);
    destruct (ex ?= ey)%Z; simpl; try reflexivity;
    change (PosDef.Pos.compare_cont Eq my mx) with (my ?= mx)%positive;
    change (PosDef.Pos.compare_cont Eq mx my) with (mx ?= my)%positive;
    rewrite (Pos.compare_antisym mx my);
    now destruct (mx ?= my)%positive.
Qed.

(** Among doubles that compare, [x <= c] is the negation of [c < x]. *)
Lemma leb_not_ltb (x c : float) :
  (x <=? c) = true → (c <? x) = false.
Proof.
  rewrite leb_spec, ltb_spec. unfold SFleb, SFltb.
  rewrite (SFcompare_swap (Prim2SF x) (Prim2SF c)).
  now destruct (SFcompare (Prim2SF x) (Prim2SF c)) as [[]|].
Qed.

Lemma not_ltb_leb (x c : float) :
  (x <=? x) = true → (c <=? c) = true → (c <? x) = false → (x <=? c) = true.
Proof.
  rewrite !leb_spec, ltb_spec. unfold SFleb, SFltb.
  rewrite (SFcompare_swap (Prim2SF x) (Prim2SF c)).
  destruct (Prim2SF x) as [sx|sx| |sx mx ex], (Prim2SF c) as [sc|sc| |sc mc ec];
    simpl; try discriminate; try reflexivity;
    try (now destruct sx); try (now destruct sc); try (now destruct sx, sc).
  intros _ _.
  now destruct (match sx, sc with
                | true, true => _ | true, false => _
                | false, true => _ | false, false => _ end).
Qed.

Lemma ltb_leb (x y : float) : (x <? y) = true → (x <=? y) = true.
Proof.
  rewrite ltb_spec, leb_spec. unfold SFltb, SFleb.
  now destruct (SFcompare (Prim2SF x) (Prim2SF y)) as [[]|].
Qed.

Lemma leb_refl_of_leb (x y : float) : (x <=? y) = true → (y <=? y) = true.
Proof.
  rewrite !leb_spec. unfold SFleb.
  destruct (Prim2SF x) as [sx|sx| |sx mx ex], (Prim2SF y) as [sy|sy| |sy my ey];
    simpl; try discriminate; try reflexivity; intros _;
    try (now destruct sy);
    destruct sy; rewrite Z.compare_refl; simpl;
    change (PosDef.Pos.compare_cont Eq my my) with (my ?= my)%positive;
    rewrite Pos.compare_refl; reflexivity.
Qed.

(** X1. The sampling ranges in doubles, with every result of Math.random a
    double of [0, 1): rounding never takes a sample out of its range. The
    velocity drawn has X = 1 when the first result is above 1/2 and X = -1
    when it is at most 1/2, and Y between -0.5 and 0.5. The colour drawn
    has R, G and B between 0 and 1 and alpha 1. *)
Theorem random_ranges_binary64 (w : World float) :
  (∀ n, (0 <=? random w n) = true ∧ (random w n <? 1) = true) →
  ∃ vx vy r g b a,
    result_of (Drawable.randomMoveVector w) = Some (vx, vy) ∧
    result_of (Drawable.randomColor w) = Some (r, g, b, a) ∧
    (vx = 1 ∨ vx = -1) ∧
    (vx = 1 ↔ (0.5 <? random w (calls w)) = true) ∧
    (vx = -1 ↔ (random w (calls w) <=? 0.5) = true) ∧
    ((-0.5 <=? vy) = true ∧ (vy <=? 0.5) = true) ∧
    ((0 <=? r) = true ∧ (r <=? 1) = true) ∧
    ((0 <=? g) = true ∧ (g <=? 1) = true) ∧
    ((0 <=? b) = true ∧ (b <=? 1) = true) ∧
    a = 1.
Proof.
  intros Hr.
  rewrite randomMoveVector_spec, randomColor_spec. cbn [result_of].
  do 6 eexists. split; [reflexivity|]. split; [reflexivity|].
  destruct (Hr (calls w)) as [H0 H0']. destruct (Hr (S (calls w))) as [H1 H1'].
  destruct (Hr (S (S (calls w)))) as [H2 H2'].
  assert (Hne : (1 : float) ≠ -1).
  { intros E. apply (f_equal (λ x, x <? 0)) in E. discriminate E. }
  cbn [nmul nsub ngt lit binary64].
  change (litF 0.5) with 0.5. change (litF 1) with 1. change (litF (-1)) with (-1).
  change (litF 2) with 2.
  split; [|split; [|split; [|split; [exact (centred_half _ H1 H1')|]]]].
  - destruct (0.5 <? random w (calls w)); [now left|now right].
  - destruct (0.5 <? random w (calls w)); split; congruence.
  - destruct (0.5 <? random w (calls w)) eqn:E.
    + split; [intros E1; now destruct Hne|].
      intros Hle. apply leb_not_ltb in Hle. congruence.
    + split; [intros _|reflexivity].
      apply not_ltb_leb; [now apply (leb_refl_of_leb 0)|reflexivity|assumption].
  - repeat split; try assumption; now apply ltb_leb.
Qed.

End Binary64.

(** ** Exact arithmetic *)

Section Exact.
Local Open Scope Q_scope.

(** C7. Random sampling ranges, with every result of Math.random a rational
    in [0, 1). The velocity drawn has X = 1 when the first result lies in
    (1/2, 1) and X = -1 when it lies in [0, 1/2], two intervals of the same
    length, and Y within [-1/2, 1/2]. The colour drawn has R, G and B within
    [0, 1] and alpha 1. *)
Theorem random_ranges (w : World Q) :
  (∀ n, 0 <= random w n < 1) →
  ∃ vx vy r g b a,
    result_of (Drawable.randomMoveVector w) = Some (vx, vy) ∧
    result_of (Drawable.randomColor w) = Some (r, g, b, a) ∧
    (vx = 1 ∨ vx = -1) ∧
    (vx = 1 ↔ 1 # 2 < random w (calls w)) ∧
    (vx = -1 ↔ random w (calls w) <= 1 # 2) ∧
    1 - (1 # 2) == (1 # 2) - 0 ∧
    - (1 # 2) <= vy <= 1 # 2 ∧
    0 <= r <= 1 ∧ 0 <= g <= 1 ∧ 0 <= b <= 1 ∧ a = 1.
Proof.
  intros Hr.
  rewrite randomMoveVector_spec, randomColor_spec. simpl.
  do 6 eexists. split; [reflexivity|]. split; [reflexivity|].
  pose proof (Hr (calls w)) as H0. pose proof (Hr (S (calls w))) as H1.
  pose proof (Hr (S (S (calls w)))) as H2.
  destruct (Qle_bool (random w (calls w)) 0.5) eqn:E; simpl.
  - apply Qle_bool_iff in E.
    split; [now right|]. split.
    { split; [discriminate|]. intros Hlt. exfalso. lra. }
    split. { split; [intros _; lra | reflexivity]. }
    split; [reflexivity|]. repeat split; try lra.
  - assert (¬ random w (calls w) <= 0.5) as E'.
    { intros Hle. apply Qle_bool_iff in Hle. congruence. }
    split; [now left|]. split.
    { split; [intros _; lra | reflexivity]. }
    split. { split; [discriminate|]. intros Hle. exfalso. lra. }
    split; [reflexivity|]. repeat split; try lra.
Qed.

(** C10, as amended. With both keys of a paddle held, the update leaves the
    Y translation at (Y + s) - s, where s = PIXELS_PER_SEC * deltaTime. In
    exact arithmetic this is Y again: the two displacements cancel. *)
Theorem both_keys_cancel (G : Globals Q) (w : World Q) (this : loc) (p : Plank Q)
    (deltaTime : Q) :
  plank_at w this = Some p →
  Plank.held p (up (keys p)) = true →
  Plank.held p (down (keys p)) = true →
  let y := (translation (plank_super p)).2 in
  let step := PIXELS_PER_SEC G * deltaTime in
  plank_at (world_of (Plank.moveUpdate G this deltaTime w)) this
    = Some (at_height p ((y + step) - step)) ∧
  (y + step) - step == y.
Proof.
  intros Hp Hup Hdown y step. apply plank_at_Some in Hp.
  rewrite (Plank_moveUpdate_spec G w this p deltaTime Hp), Hup, Hdown. simpl.
  split.
  - unfold plank_at. simpl. now rewrite lookup_insert_eq.
  - ring.
Qed.

(** X13. In exact arithmetic, for a rate and a deltaTime that are not negative,
    the up key alone does not lower the paddle's Y and the down key alone
    does not raise it. *)
Lemma plank_direction (G : Globals Q) (w : World Q) (this : loc) (p : Plank Q)
    (deltaTime : Q) :
  plank_at w this = Some p →
  0 <= PIXELS_PER_SEC G → 0 <= deltaTime →
  ∃ p', plank_at (world_of (Plank.moveUpdate G this deltaTime w)) this = Some p' ∧
    let y := (translation (plank_super p)).2 in
    let y' := (translation (plank_super p')).2 in
    (Plank.held p (up (keys p)) = true → Plank.held p (down (keys p)) = false → y <= y') ∧
    (Plank.held p (up (keys p)) = false → Plank.held p (down (keys p)) = true → y' <= y).
Proof.
  intros Hp HP Hdt. pose proof Hp as Hp'. apply plank_at_Some in Hp.
  rewrite (Plank_moveUpdate_spec G w this p deltaTime Hp). simpl.
  assert (Hput : ∀ p', plank_at (put_plank w this p') this = Some p').
  { intros p'. unfold plank_at, put_plank. simpl. now rewrite lookup_insert_eq. }
  assert (0 <= PIXELS_PER_SEC G * deltaTime) by now apply Qmult_le_0_compat.
  destruct (Plank.held p (up (keys p))), (Plank.held p (down (keys p)));
    eexists; (split; [first [apply Hput | exact Hp']|]); simpl;
    split; intros; try discriminate; lra.
Qed.

Lemma last_cons {A} (a d : A) (l : list A) : List.last (a :: l) d = List.last l a.
Proof.
  revert a d. induction l as [|b l IH]; intros a d; [reflexivity|].
  change (List.last (a :: b :: l) d) with (List.last (b :: l) d).
  now rewrite !IH.
Qed.

(** X11. Frame-rate independence, in exact arithmetic. Over any sequence of
    animation frames, a plank whose up key is held, and whose down key is
    not, travels by PIXELS_PER_SEC times the time between the previous frame
    and the last one, however many frames there were in between and
    whenever they came; its X translation stays. After the frames [then] is
    the timestamp of the last one, in seconds. *)
Theorem held_key_travel (G : Globals Q) (nows : list Q) (w : World Q) (then_ : Q)
    (this : loc) (p : Plank Q) (pre post : list loc) :
  scene_ok w = true →
  drawables w = pre ++ this :: post →
  this ∉ pre → this ∉ post →
  plank_at w this = Some p →
  Plank.held p (up (keys p)) = true →
  Plank.held p (down (keys p)) = false →
  ∃ t w' p',
    run G (Frame <$> nows) then_ w = Return t w' ∧
    t = List.last ((λ now, now * 0.001) <$> nows) then_ ∧
    plank_at w' this = Some p' ∧
    (translation (plank_super p')).1 = (translation (plank_super p)).1 ∧
    (translation (plank_super p')).2
      == (translation (plank_super p)).2 + PIXELS_PER_SEC G * (t - then_).
Proof.
  revert w then_ p. induction nows as [|now rest IH]; intros w then_ p Hok Hd Hpre Hpost Hp Hup Hdown.
  - exists then_, w, p. split; [reflexivity|]. split; [reflexivity|].
    split; [assumption|]. split; [reflexivity|]. ring.
  - pose proof Hok as Hall. unfold scene_ok in Hall.
    apply andb_true_iff in Hall as [Hall _]. rewrite Hd in Hall.
    pose proof Hp as Hp'. apply plank_at_Some in Hp'.
    destruct (moveUpdate_all_plank G pre post w this p (now * 0.001 - then_)
                Hall Hpre Hpost Hp') as (w1 & E1 & Hs1 & Hat).
    assert (Hok1 : scene_ok w1 = true) by (eapply scene_ok_same_scene; eassumption).
    unfold plank_moved in Hat. rewrite Hup, Hdown in Hat.
    apply plank_at_Some in Hat.
    assert (Hd1 : drawables w1 = pre ++ this :: post)
      by (destruct Hs1 as (_ & -> & _); exact Hd).
    destruct (IH w1 (now * 0.001) _ Hok1 Hd1 Hpre Hpost Hat Hup Hdown)
      as (t & w' & p' & E & Ht & Hp1 & Hx & Hy).
    exists t, w', p'. split.
    { change (run G (Frame <$> now :: rest) then_ w)
        with ((t ← drawScene G now then_; run G (Frame <$> rest) t) w).
      unfold drawScene, drawScene_update. unfold mbind, M_bind.
      rewrite Hd. change nmul with Qmult. change nsub with Qminus. change (lit 0.001) with 0.001.
      rewrite E1. exact E. }
    split; [rewrite Ht; symmetry; apply last_cons|].
    split; [assumption|]. split; [exact Hx|].
    rewrite Hy. simpl. change nmul with Qmult. change nadd with Qplus. ring.
Qed.

End Exact.

(** ** The properties on the sample worlds *)

(** A closed hypothesis or goal, settled by evaluation. *)
Ltac evaluate := vm_compute; reflexivity.

Section Witnesses.
Import Sample.
Local Open Scope float_scope.


(** From the bottom edge, flag down: the frame ends with the flag up. *)
Lemma flag_lifecycle_witness :
  flag_at (world_of (Ball.moveUpdate K the_ball 0.016 at_low)) the_ball = Some true.
Proof.
  destruct (flag_lifecycle K at_low the_ball low_ball 0.016 0.016)
    as (Hflag & _); [evaluate | evaluate |].
  vm_compute in Hflag |- *. exact Hflag.
Defined.

(** On the top edge clear of the planks: the wall modifiers raise the flag,
    and the next frame, with the ball inside the left plank's box, finds no
    collision at all. *)
Lemma wall_bounce_sets_flag_witness :
  let w1 := world_of (Ball.moveUpdate K the_ball 0.03 at_edge) in
  flag_at w1 the_ball = Some true ∧
  (touches_any K w1 <$> ball_at w1 the_ball) = Some true ∧
  Ball.detectCollision K the_ball w1 = Return None w1.
Proof.
  intros w1.
  destruct (wall_bounce_sets_flag K at_edge the_ball edge_ball (1, -1) 0.03)
    as (_ & Hwall & Hnext); [evaluate | evaluate |].
  split; [apply Hwall; evaluate|].
  split; [evaluate|].
  assert (Hb1 : ∃ b1, ball_at w1 the_ball = Some b1) by (vm_compute; eauto).
  destruct Hb1 as [b1 Hb1].
  specialize (Hnext ltac:(evaluate) b1 Hb1).
  vm_compute in Hb1. injection Hb1 as <-.
  specialize (Hnext ltac:(evaluate)).
  vm_compute in Hnext |- *. exact Hnext.
Defined.

(** On the corner of the left plank's box: one flip, then a frame without. *)
Lemma debounce_two_frames_witness :
  ∃ b1, ball_at (world_of (Ball.moveUpdate K the_ball 0.016 at_corner)) the_ball = Some b1 ∧
    moveVector (ball_super b1) = (1 * -1 * 1.1, -0.25 * 1 * 1.1) ∧
    isInsideCollidable b1 = true.
Proof.
  destruct (debounce_two_frames K at_corner the_ball corner_ball 0.016 0.016)
    as (b1 & Hb1 & Hv & Hflag & _); [evaluate | evaluate | evaluate | evaluate |].
  exists b1. split; [exact Hb1|]. split; [|exact Hflag].
  rewrite Hv. evaluate.
Defined.


(** The left plank, 20 ms after its up key went down. *)
Lemma plank_moveUpdate_displacement_witness :
  (λ p, translation (plank_super p)) <$>
    plank_at (world_of (Plank.moveUpdate K left_plank 0.02
                          (world_of (keydown "w" start)))) left_plank
  = Some (0, 0 + 333 * 0.02).
Proof.
  destruct (plank_moveUpdate_displacement K
              (world_of (keydown "w" start)) left_plank
              (mkPlank (mkDrawable (0, 0) (0, 1) (0, 0, 0, 0))
                 (mkKeys "w" "s") (<["w" := true]> ∅)) 0.02)
    as (_ & Hup & _); [evaluate|].
  rewrite (Hup ltac:(evaluate) ltac:(evaluate)). evaluate.
Defined.

(** Registering a number throws; registering the centre line appends it. *)
Lemma registerCollisionObject_spec_witness :
  Ball.registerCollisionObject the_ball (VNumber 3) start
    = Throw (Error "Object must be of type Drawable") start ∧
  (collidables <$>
     ball_at (world_of (Ball.registerCollisionObject the_ball (VObject 3%nat) start))
       the_ball)
    = Some [VObject 0%nat; VObject 1%nat; VObject 3%nat].
Proof.
  split.
  - destruct (registerCollisionObject_spec start the_ball
                (mkBall (mkDrawable (500, 300) (1, -0.25) (1, 0, 0, 1))
                   [VObject 0%nat; VObject 1%nat] false) (VNumber 3))
      as (_ & Hthrow & _); [evaluate|].
    apply Hthrow. evaluate.
  - destruct (registerCollisionObject_spec start the_ball
                (mkBall (mkDrawable (500, 300) (1, -0.25) (1, 0, 0, 1))
                   [VObject 0%nat; VObject 1%nat] false) (VObject 3%nat))
      as (_ & _ & Hpush); [evaluate|].
    rewrite (Hpush ltac:(evaluate)). evaluate.
Defined.

(** Velocity (1, -0.25) against a collidable: X turns negative, Y stays
    negative. *)
Lemma bounce_flips_one_axis_witness :
  ∃ b', ball_at (world_of (Ball.bounce K the_ball (Some (-1, 1)) at_corner)) the_ball
          = Some b' ∧
    sign (moveVector (ball_super b')).1 = Some true ∧
    sign (moveVector (ball_super b')).2 = Some true.
Proof.
  destruct (bounce_flips_one_axis K at_corner the_ball corner_ball)
    as ((b' & Hb' & _ & _ & Hsx & Hsy & _) & _); [evaluate | evaluate | evaluate |].
  exists b'. split; [exact Hb'|]. split; [rewrite Hsx | rewrite Hsy]; evaluate.
Defined.

End Witnesses.

(** With 3/4 as every result of Math.random: X = 1. *)
Lemma random_ranges_witness :
  ∃ vy, result_of (Drawable.randomMoveVector SampleQ.start) = Some (1%Q, vy).
Proof.
  destruct (random_ranges SampleQ.start)
    as (vx & vy & r & g & b & a & Hv & _ & _ & Hone & _).
  { intros n. vm_compute. split; [discriminate | reflexivity]. }
  exists vy. rewrite Hv. f_equal. f_equal. apply Hone. evaluate.
Defined.

(** In exact arithmetic the left plank, both keys held, stays at 6.66. *)
Lemma both_keys_cancel_witness :
  ((λ p, Qred (translation (plank_super p)).2) <$>
     plank_at (world_of (Plank.moveUpdate SampleQ.K 0%nat 0.03%Q SampleQ.both_held)) 0%nat)
  = Some (Qred 6.66%Q).
Proof.
  destruct (both_keys_cancel SampleQ.K SampleQ.both_held 0%nat
              (mkPlank (mkDrawable (0, 0 + 1000 * 0.333 * 0.02) (0, 1) (0, 0, 0, 0))
                 (mkKeys "w" "s") (<["s" := true]> (<["w" := true]> ∅))) 0.03)%Q
    as (Hp & _); [evaluate | evaluate | evaluate |].
  rewrite Hp. evaluate.
Defined.

(** ** The scene properties on the sample worlds *)

Section SceneWitnesses.
Import Sample.
Local Open Scope float_scope.

(** With 0.75 as the first result of Math.random, in doubles: X = 1. *)
Lemma random_ranges_binary64_witness :
  ∃ vy, result_of (Drawable.randomMoveVector dice) = Some (1, vy).
Proof.
  destruct (random_ranges_binary64 dice)
    as (vx & vy & r & g & b & a & Hv & _ & _ & Hone & _).
  { intros n. cbn [random dice]. unfold rolls.
    destruct (Nat.even n); split; evaluate. }
  exists vy. rewrite Hv. f_equal. f_equal. apply Hone. evaluate.
Defined.

(** The reset at the left edge takes five results of Math.random after the
    two of the start. *)
Lemma ball_frame_footprint_witness :
  calls (world_of (Ball.moveUpdate K the_ball 0.016 at_exit)) = 7%nat.
Proof.
  destruct (ball_frame_footprint K at_exit the_ball exit_ball 0.016)
    as (_ & _ & _ & _ & _ & Hc); [evaluate | evaluate |].
  rewrite Hc. evaluate.
Defined.

(** A second ball on the scene of the script is the sixth drawable. *)
Lemma addNewBall_appends_witness :
  drawables (world_of (addNewBall None start)) = [0; 1; 2; 3; 4; 5]%nat.
Proof.
  destruct (addNewBall_appends start None 0%nat 1%nat)
    as (_ & _ & Hd & _); [evaluate | evaluate | evaluate | evaluate |].
  rewrite Hd. evaluate.
Defined.

(** A ball on an empty scene: the first registration throws. *)
Lemma addNewBall_needs_two_drawables_witness :
  ∃ w', addNewBall (Some (1, 0, 0, 1)) dice
          = Throw (Error "Object must be of type Drawable") w' ∧
        drawables w' = [].
Proof.
  destruct (addNewBall_needs_two_drawables dice (Some (1, 0, 0, 1)))
    as (w' & E & Hd & _).
  - intros l Hl. apply elem_of_nil in Hl. destruct Hl.
  - simpl. lia.
  - exists w'. split; [exact E | exact Hd].
Defined.

(** The key w goes down: the left plank holds it. *)
Lemma key_events_witness :
  holds (world_of (keydown "w" start)) left_plank "w" = true.
Proof.
  destruct (key_events start left_plank
              (mkPlank (mkDrawable (0, 0) (0, 1) (0, 0, 0, 0)) (mkKeys "w" "s") ∅) "w")
    as (_ & _ & Hheld & _); [evaluate | discriminate | exact Hheld].
Defined.

(** The key w goes down, and a frame of 20 ms takes the left plank from 0
    to 333 * 0.02. *)
Lemma press_then_frame_witness :
  (translation ∘ plank_super <$>
     plank_at (world_of (Plank.moveUpdate K left_plank 0.02
                           (world_of (keydown "w" start)))) left_plank)
  = Some (0, 0 + 333 * 0.02).
Proof.
  destruct (press_then_frame K start left_plank
              (mkPlank (mkDrawable (0, 0) (0, 1) (0, 0, 0, 0)) (mkKeys "w" "s") ∅) 0.02)
    as (Hmove & _); [evaluate | discriminate | discriminate | evaluate |].
  vm_compute in Hmove |- *. exact Hmove.
Defined.

(** A frame of 16 ms on the scene of the script. *)
Lemma frame_keeps_scene_witness :
  scene_ok (world_of (drawScene_update K 0.016 start)) = true.
Proof.
  destruct (frame_keeps_scene K start 0.016) as (_ & Hok & _); [evaluate | exact Hok].
Defined.

(** The left plank, first of the five drawables, through a frame of 20 ms
    with its up key held. *)
Lemma frame_moves_plank_once_witness :
  (translation ∘ plank_super <$>
     plank_at (world_of (drawScene_update K 0.02 (world_of (keydown "w" start))))
       left_plank)
  = Some (0, 0 + 333 * 0.02).
Proof.
  destruct (frame_moves_plank_once K (world_of (keydown "w" start)) left_plank
              (mkPlank (mkDrawable (0, 0) (0, 1) (0, 0, 0, 0)) (mkKeys "w" "s")
                 (<["w" := true]> ∅))
              0.02 [] [1; 2; 3; 4]%nat)
    as (_ & Hsame); [evaluate | evaluate | | | evaluate |].
  - apply not_elem_of_nil.
  - unfold left_plank. rewrite !not_elem_of_cons. repeat split; try discriminate.
    apply not_elem_of_nil.
  - rewrite Hsame. evaluate.
Defined.

(** The centre line through a key press, a frame, a new ball and a change
    of the canvas size. *)
Lemma run_keeps_witness :
  heap (world_of (run K [KeyDown "w"; Frame 16; KeyPress "`";
                         Resize (mkCanvas 800 500); Frame 32] 0 start)) !! 3%nat
  = Some (ODrawable (mkDrawable (500, 0) (0, 0) (0, 0, 0, 1))).
Proof.
  destruct (run_keeps K [KeyDown "w"; Frame 16; KeyPress "`";
                         Resize (mkCanvas 800 500); Frame 32] 0 start)
    as (_ & Hkeeps & _); [evaluate|].
  destruct (Hkeeps 3%nat (ODrawable (mkDrawable (500, 0) (0, 0) (0, 0, 0, 1))))
    as (o' & Ho' & Hstable); [evaluate|].
  destruct o'; simpl in Hstable; try contradiction.
  subst. exact Ho'.
Defined.

End SceneWitnesses.


(** 256 has one bit. *)
Lemma isPowerOf2_spec_witness : isPowerOf2 256 = true.
Proof.
  apply (isPowerOf2_spec 256).
  - split; [reflexivity | discriminate].
  - right. exists 8%Z. split; [split; [discriminate | reflexivity] | reflexivity].
Defined.

(** With the key w held, three frames at 16, 32 and 48 ms take the left
    plank 333 * 0.048 = 15.984 pixels from where it was. *)
Lemma held_key_travel_witness :
  ∃ w' p',
    run SampleQ.K (Frame <$> [16; 32; 48]%Q) 0%Q (world_of (keydown "w" SampleQ.start))
      = Return (48 * 0.001)%Q w' ∧
    plank_at w' 0%nat = Some p' ∧
    ((translation (plank_super p')).2 == 15.984)%Q.
Proof.
  destruct (held_key_travel SampleQ.K [16; 32; 48]%Q
              (world_of (keydown "w" SampleQ.start)) 0%Q 0%nat
              (mkPlank (mkDrawable (0, 0) (0, 1) (0, 0, 0, 0)) (mkKeys "w" "s")
                 (<["w" := true]> ∅))%Q
              [] [1; 2; 3; 4]%nat)
    as (t & w' & p' & E & Ht & Hp' & _ & Hy);
    [evaluate | evaluate | | | evaluate | evaluate | evaluate |].
  - apply not_elem_of_nil.
  - rewrite !not_elem_of_cons. repeat split; try discriminate. apply not_elem_of_nil.
  - exists w', p'. cbn [fmap list_fmap List.last] in Ht. subst t.
    split; [exact E|]. split; [exact Hp'|]. rewrite Hy. evaluate.
Defined.

(** With the key w held, a frame of 20 ms does not lower the left plank. *)
Lemma plank_direction_witness :
  ∃ p', plank_at (world_of (Plank.moveUpdate SampleQ.K 0%nat 0.02%Q
                              (world_of (keydown "w" SampleQ.start)))) 0%nat = Some p' ∧
        (0 <= (translation (plank_super p')).2)%Q.
Proof.
  destruct (plank_direction SampleQ.K (world_of (keydown "w" SampleQ.start)) 0%nat
              (mkPlank (mkDrawable (0, 0) (0, 1) (0, 0, 0, 0)) (mkKeys "w" "s")
                 (<["w" := true]> ∅))%Q 0.02%Q)
    as (p' & Hp' & Hup & _); [evaluate | discriminate | discriminate |].
  exists p'. split; [exact Hp'|]. apply Hup; evaluate.
Defined.

(** ** Where the stated properties fail *)

Section Counterexamples.
Import Sample.
Local Open Scope float_scope.

(** C1 as stated fails. The ball starts on the corner of the left plank's
    expanded box with the flag down and velocity (1, -0.25). The first frame
    turns the velocity into (-1.1, -0.275) and leaves the ball inside the box.
    The second frame leaves the velocity at (-1.1, -0.275): X is not flipped
    again and nothing is scaled. *)
Lemma second_frame_does_not_flip :
  let w1 := world_of (Ball.moveUpdate K the_ball 0.016 at_corner) in
  let w2 := world_of (Ball.moveUpdate K the_ball 0.016 w1) in
  flag_at at_corner the_ball = Some false ∧
  (touches_any K at_corner <$> ball_at at_corner the_ball) = Some true ∧
  (moveVector ∘ ball_super <$> ball_at at_corner the_ball) = Some (1, -0.25) ∧
  (touches_any K w1 <$> ball_at w1 the_ball) = Some true ∧
  (moveVector ∘ ball_super <$> ball_at w1 the_ball) = Some (-1.1, -0.275) ∧
  (moveVector ∘ ball_super <$> ball_at w2 the_ball) = Some (-1.1, -0.275).
Proof. vm_compute. repeat split; reflexivity. Qed.


(** C3 as stated fails. The ball starts on the bottom edge, 3 pixels from the
    left wall. The first frame is a wall contact and raises the flag. The
    second frame starts beyond the left wall and clear of the top and bottom
    edges: it is a side-wall exit, not the no-match case, and it ends with
    the flag down. *)
Lemma side_exit_clears_flag :
  let w1 := world_of (Ball.moveUpdate K the_ball 0.016 at_low) in
  let w2 := world_of (Ball.moveUpdate K the_ball 0.016 w1) in
  flag_at w1 the_ball = Some true ∧
  (at_top_bottom w1 <$> ball_at w1 the_ball) = Some false ∧
  (at_side w1 <$> ball_at w1 the_ball) = Some true ∧
  flag_at w2 the_ball = Some false.
Proof. vm_compute. repeat split; reflexivity. Qed.

(** C10 as stated fails in doubles. The left plank stands at Y = 6.66 after a
    frame of 20 ms with its up key held. With both keys held, a frame of
    30 ms leaves it at 6.659999999999998: (6.66 + 9.99) - 9.99 is rounded
    twice. *)
Lemma both_keys_drift :
  let w1 := world_of (Plank.moveUpdate K left_plank 0.03 both_held) in
  (λ p, (Plank.held p "w", Plank.held p "s", (translation (plank_super p)).2)) <$>
    plank_at both_held left_plank = Some (true, true, 6.66) ∧
  (λ p, (translation (plank_super p)).2) <$> plank_at w1 left_plank
    = Some 6.6599999999999984 ∧
  (6.6599999999999984 <? 6.66) = true.
Proof. vm_compute. repeat split; reflexivity. Qed.

End Counterexamples.
